(** * Terminal snake game: the state machine of [snake_game.py]

    A shallow embedding of the class [SnakeGame] of [src/snake_game.py]
    ([src/snake_game_learn.py] is the same program with tutorial comments):
    [reset_game], [generate_food], [handle_input] and [update_snake], with
    the attributes of [self] as a record, Python integers as [Z], the
    [random] module as a cursor over a sequence of raw draws, and the
    [while True] loop of [generate_food] driven by fuel.  The loop of [run]
    is taken over the keys it is given.  The drawing methods, which write to
    no attribute of the game, are the lists of the [stdscr] calls they make;
    a small model of the window tells what those calls leave on a cell. *)

From Stdlib Require Import ZArith List Bool Lia.
From Stdlib Require String DecimalString.
Import String.StringSyntax.
Import ListNotations.
Local Open Scope string_scope.
Local Open Scope Z_scope.

(** ** Positions and directions *)

(** [class Direction(Enum)]: the four members; [value] is the tuple each one
    carries. *)
Inductive Direction : Type := UP | DOWN | LEFT | RIGHT.

Definition value (d : Direction) : Z * Z :=
  match d with
  | UP => (-1, 0)
  | DOWN => (1, 0)
  | LEFT => (0, -1)
  | RIGHT => (0, 1)
  end.

Definition Direction_eqb (a b : Direction) : bool :=
  match a, b with
  | UP, UP | DOWN, DOWN | LEFT, LEFT | RIGHT, RIGHT => true
  | _, _ => false
  end.

(** The exact reversal of a direction (not a function of the program, which
    names the reversed member in each branch of [handle_input]). *)
Definition opposite (d : Direction) : Direction :=
  match d with
  | UP => DOWN
  | DOWN => UP
  | LEFT => RIGHT
  | RIGHT => LEFT
  end.

(** A cell [(row, column)], a Python tuple of two integers. *)
Definition Position : Type := (Z * Z)%type.

(** [p == q] on tuples. *)
Definition pos_eqb (p q : Position) : bool :=
  (fst p =? fst q) && (snd p =? snd q).

(** [p in l] on a list of tuples. *)
Fixpoint pos_in (p : Position) (l : list Position) : bool :=
  match l with
  | [] => false
  | q :: l' => pos_eqb p q || pos_in p l'
  end.

(** ** Effects: exceptions, the unbounded loop, the random module *)

Inductive exn : Type := ValueError | IndexError.

(** What a call comes to: a result, a Python exception, or a loop that was
    still running when the fuel ran out. *)
Inductive outcome (A : Type) : Type :=
| Done (a : A)
| Raise (e : exn)
| OutOfFuel.
Arguments Done {A} a.
Arguments Raise {A} e.
Arguments OutOfFuel {A}.

(** The state of the [random] module: the sequence of raw values it will
    produce and how many of them were consumed. *)
Record Rng : Type := mkRng { draws : nat -> Z; cursor : nat }.

Definition skip (n : nat) (g : Rng) : Rng :=
  {| draws := draws g; cursor := (n + cursor g)%nat |}.

(** Computations that read the random module, may raise and may run out of
    fuel. *)
Definition M (A : Type) : Type := Rng -> outcome (A * Rng).

Definition ret {A : Type} (a : A) : M A := fun g => Done (a, g).

Definition raise {A : Type} (e : exn) : M A := fun _ => Raise e.

Definition bind {A B : Type} (m : M A) (k : A -> M B) : M B :=
  fun g =>
    match m g with
    | Done (a, g') => k a g'
    | Raise e => Raise e
    | OutOfFuel => OutOfFuel
    end.

Notation "x <- m ;; k" := (bind m (fun x => k))
  (at level 61, m at next level, right associativity).

(** [random.randint(a, b)]: an integer of [a..b], both ends included;
    [ValueError] on an empty range.  Every sequence of results the module
    can give is the image of some sequence of raw draws. *)
Definition randint (a b : Z) : M Z :=
  fun g =>
    if b <? a then Raise ValueError
    else Done (a + draws g (cursor g) mod (b - a + 1), skip 1 g).

(** ** The game object *)

(** The attributes of [self]; [timeout] is the delay last given to
    [stdscr.timeout]. *)
Record SnakeGame : Type := mkGame {
  score : Z;
  high_score : Z;
  height : Z;
  width : Z;
  game_height : Z;
  game_width : Z;
  snake : list Position;
  direction : Direction;
  food : Position;
  game_over : bool;
  timeout : Z
}.

Definition set_score (s : SnakeGame) (v : Z) : SnakeGame :=
  mkGame v (high_score s) (height s) (width s) (game_height s) (game_width s)
         (snake s) (direction s) (food s) (game_over s) (timeout s).

Definition set_high_score (s : SnakeGame) (v : Z) : SnakeGame :=
  mkGame (score s) v (height s) (width s) (game_height s) (game_width s)
         (snake s) (direction s) (food s) (game_over s) (timeout s).

Definition set_snake (s : SnakeGame) (v : list Position) : SnakeGame :=
  mkGame (score s) (high_score s) (height s) (width s) (game_height s)
         (game_width s) v (direction s) (food s) (game_over s) (timeout s).

Definition set_direction (s : SnakeGame) (v : Direction) : SnakeGame :=
  mkGame (score s) (high_score s) (height s) (width s) (game_height s)
         (game_width s) (snake s) v (food s) (game_over s) (timeout s).

Definition set_food (s : SnakeGame) (v : Position) : SnakeGame :=
  mkGame (score s) (high_score s) (height s) (width s) (game_height s)
         (game_width s) (snake s) (direction s) v (game_over s) (timeout s).

Definition set_game_over (s : SnakeGame) (v : bool) : SnakeGame :=
  mkGame (score s) (high_score s) (height s) (width s) (game_height s)
         (game_width s) (snake s) (direction s) (food s) v (timeout s).

Definition set_timeout (s : SnakeGame) (v : Z) : SnakeGame :=
  mkGame (score s) (high_score s) (height s) (width s) (game_height s)
         (game_width s) (snake s) (direction s) (food s) (game_over s) v.

(** ** [generate_food] *)

(** One pass of the loop body draws a row of [1 .. game_height - 1], then a
    column of [1 .. game_width - 1]; the loop goes round again when the cell
    is on the snake. *)
Fixpoint generate_food (fuel : nat) (s : SnakeGame) : M Position :=
  match fuel with
  | O => fun _ => OutOfFuel
  | S fuel' =>
      food_y <- randint 1 (game_height s - 1) ;;
      food_x <- randint 1 (game_width s - 1) ;;
      if negb (pos_in (food_y, food_x) (snake s))
      then ret (food_y, food_x)
      else generate_food fuel' s
  end.

(** ** [reset_game] *)

Definition start_snake (s : SnakeGame) : list Position :=
  let start_y := game_height s / 2 in
  let start_x := game_width s / 2 in
  [(start_y, start_x); (start_y, start_x - 1); (start_y, start_x - 2)].

Definition reset_game (fuel : nat) (s : SnakeGame) : M SnakeGame :=
  let s1 := set_snake s (start_snake s) in
  let s2 := set_direction s1 RIGHT in
  f <- generate_food fuel s2 ;;
  let s3 := set_food s2 f in
  let s4 := set_game_over s3 false in
  ret (set_score s4 0).

(** ** [__init__] *)

(** [stdscr.getmaxyx()] gives [(h, w)].  The attributes [reset_game] is the
    first to assign ([snake], [direction], [food], [game_over]) do not exist
    before it runs and it reads none of them; the record holds placeholders
    for them until then.  [stdscr.timeout(100)] comes after [reset_game]. *)
Definition init (fuel : nat) (h w : Z) : M SnakeGame :=
  let s0 := mkGame 0 0 h w (h - 4) (w - 2) [] RIGHT (0, 0) false 0 in
  s1 <- reset_game fuel s0 ;;
  ret (set_timeout s1 100).

(** ** [handle_input] *)

(** Key codes: [ord] of the letters, and the values of the curses
    constants. *)
Definition ord_q : Z := 113.
Definition ord_Q : Z := 81.
Definition ord_r : Z := 114.
Definition ord_R : Z := 82.
Definition ord_w : Z := 119.
Definition ord_W : Z := 87.
Definition ord_s : Z := 115.
Definition ord_S : Z := 83.
Definition ord_a : Z := 97.
Definition ord_A : Z := 65.
Definition ord_d : Z := 100.
Definition ord_D : Z := 68.
Definition KEY_DOWN : Z := 258.
Definition KEY_UP : Z := 259.
Definition KEY_LEFT : Z := 260.
Definition KEY_RIGHT : Z := 261.

(** [key] is what [stdscr.getch()] returned.  The result pairs the returned
    boolean ([False]: quit) with the game afterwards. *)
Definition handle_input (fuel : nat) (key : Z) (s : SnakeGame)
  : M (bool * SnakeGame) :=
  if (key =? ord_q) || (key =? ord_Q) then ret (false, s)
  else if (key =? ord_r) || (key =? ord_R) then
    if game_over s
    then s' <- reset_game fuel s ;; ret (true, s')
    else ret (true, s)
  else if negb (game_over s) then
    if (key =? KEY_UP) || (key =? ord_w) || (key =? ord_W) then
      if negb (Direction_eqb (direction s) DOWN)
      then ret (true, set_direction s UP) else ret (true, s)
    else if (key =? KEY_DOWN) || (key =? ord_s) || (key =? ord_S) then
      if negb (Direction_eqb (direction s) UP)
      then ret (true, set_direction s DOWN) else ret (true, s)
    else if (key =? KEY_LEFT) || (key =? ord_a) || (key =? ord_A) then
      if negb (Direction_eqb (direction s) RIGHT)
      then ret (true, set_direction s LEFT) else ret (true, s)
    else if (key =? KEY_RIGHT) || (key =? ord_d) || (key =? ord_D) then
      if negb (Direction_eqb (direction s) LEFT)
      then ret (true, set_direction s RIGHT) else ret (true, s)
    else ret (true, s)
  else ret (true, s).

(** ** [update_snake] *)

(** The wall test of [update_snake] on the new head. *)
Definition wall_collision (s : SnakeGame) (p : Position) : bool :=
  (fst p <=? 0) || (fst p >=? game_height s)
  || (snd p <=? 0) || (snd p >=? game_width s).

(** The three statements both collision branches run before [return]. *)
Definition end_game (s : SnakeGame) : SnakeGame :=
  let s1 := set_game_over s true in
  if score s1 >? high_score s1 then set_high_score s1 (score s1) else s1.

(** [head + direction.value]. *)
Definition step_from (p : Position) (d : Direction) : Position :=
  let '(head_y, head_x) := p in
  let '(dy, dx) := value d in
  (head_y + dy, head_x + dx).

Definition update_snake (fuel : nat) (s : SnakeGame) : M SnakeGame :=
  if game_over s then ret s
  else
    match snake s with
    | [] => raise IndexError
    | head :: _ =>
        let new_head := step_from head (direction s) in
        if wall_collision s new_head then ret (end_game s)
        else if pos_in new_head (snake s) then ret (end_game s)
        else
          let s1 := set_snake s (new_head :: snake s) in
          if pos_eqb new_head (food s1) then
            let s2 := set_score s1 (score s1 + 10) in
            f <- generate_food fuel s2 ;;
            let s3 := set_food s2 f in
            let new_timeout := Z.max 50 (100 - score s3 / 50) in
            ret (set_timeout s3 new_timeout)
          else ret (set_snake s1 (removelast (snake s1)))
    end.

(** ** Sequences of operations *)

(** [n] calls of [update_snake] in a row. *)
Fixpoint ticks (fuel : nat) (n : nat) (s : SnakeGame) : M SnakeGame :=
  match n with
  | O => ret s
  | S n' => s' <- update_snake fuel s ;; ticks fuel n' s'
  end.

(** The operations that write to the game after its construction. *)
Inductive op : Type :=
| OpInput (key : Z)
| OpTick
| OpReset.

Definition run_op (fuel : nat) (o : op) (s : SnakeGame) : M SnakeGame :=
  match o with
  | OpInput key => r <- handle_input fuel key s ;; ret (snd r)
  | OpTick => update_snake fuel s
  | OpReset => reset_game fuel s
  end.

Fixpoint run_ops (fuel : nat) (os : list op) (s : SnakeGame) : M SnakeGame :=
  match os with
  | [] => ret s
  | o :: os' => s' <- run_op fuel o s ;; run_ops fuel os' s'
  end.

(** The games a process can be in: built by [__init__] on some screen, then
    any number of [handle_input] and [update_snake] calls that returned. *)
Inductive reachable : SnakeGame -> Rng -> Prop :=
| reach_init fuel h w g s g' :
    init fuel h w g = Done (s, g') -> reachable s g'
| reach_input fuel key s g b s' g' :
    reachable s g ->
    handle_input fuel key s g = Done ((b, s'), g') -> reachable s' g'
| reach_tick fuel s g s' g' :
    reachable s g ->
    update_snake fuel s g = Done (s', g') -> reachable s' g'.

(** The delay the speed rule gives for a score. *)
Definition interval_ms (sc : Z) : Z := Z.max 50 (100 - sc / 50).

(** ** The passes of [generate_food] *)

(** The cell the loop body tries when the random module is at [g]. *)
Definition candidate (s : SnakeGame) (g : Rng) : Position :=
  (1 + draws g (cursor g) mod (game_height s - 1),
   1 + draws g (S (cursor g)) mod (game_width s - 1)).

(** The cell tried in pass [k] (from 0) of a call started at [g]. *)
Definition attempt (s : SnakeGame) (g : Rng) (k : nat) : Position :=
  candidate s (skip (2 * k) g).

(** The cells [generate_food] samples from. *)
Definition sampled (s : SnakeGame) (p : Position) : Prop :=
  1 <= fst p <= game_height s - 1 /\ 1 <= snd p <= game_width s - 1.

(** A random module that leaves no sampled cell out: from [g] on, every
    cell of the sampled region comes up in some pass.  A module that gives
    each cell a positive chance at each pass is like this with probability
    one. *)
Definition exhaustive (s : SnakeGame) (g : Rng) : Prop :=
  forall p, sampled s p -> exists k, attempt s g k = p.

(** ** The games the methods leave *)

(** The game [reset_game] leaves when [generate_food] returned [f]. *)
Definition reset_with (s : SnakeGame) (f : Position) : SnakeGame :=
  mkGame 0 (high_score s) (height s) (width s) (game_height s) (game_width s)
         (start_snake s) RIGHT f false (timeout s).

(** The game at the call of [generate_food] in [update_snake]: the new head
    is on and the score is up. *)
Definition fed (s : SnakeGame) (new_head : Position) : SnakeGame :=
  set_score (set_snake s (new_head :: snake s)) (score s + 10).

(** The game [update_snake] leaves after an eating move, [generate_food]
    having returned [f]. *)
Definition fed_with (s : SnakeGame) (new_head f : Position) : SnakeGame :=
  mkGame (score s + 10) (high_score s) (height s) (width s) (game_height s)
         (game_width s) (new_head :: snake s) (direction s) f (game_over s)
         (Z.max 50 (100 - (score s + 10) / 50)).

(** The game [update_snake] leaves after a move that did not eat. *)
Definition moved (s : SnakeGame) (new_head : Position) : SnakeGame :=
  set_snake s (new_head :: removelast (snake s)).

(** The four ways [update_snake] returns. *)
Inductive tick_case (fuel : nat) (s : SnakeGame) (g : Rng)
  : SnakeGame -> Rng -> Prop :=
| tick_over :
    game_over s = true -> tick_case fuel s g s g
| tick_collision head tl :
    game_over s = false ->
    snake s = head :: tl ->
    wall_collision s (step_from head (direction s)) = true
    \/ pos_in (step_from head (direction s)) (snake s) = true ->
    tick_case fuel s g (end_game s) g
| tick_move head tl :
    game_over s = false ->
    snake s = head :: tl ->
    wall_collision s (step_from head (direction s)) = false ->
    pos_in (step_from head (direction s)) (snake s) = false ->
    pos_eqb (step_from head (direction s)) (food s) = false ->
    tick_case fuel s g (moved s (step_from head (direction s))) g
| tick_eat head tl f g' :
    game_over s = false ->
    snake s = head :: tl ->
    wall_collision s (step_from head (direction s)) = false ->
    pos_in (step_from head (direction s)) (snake s) = false ->
    pos_eqb (step_from head (direction s)) (food s) = true ->
    generate_food fuel (fed s (step_from head (direction s))) g
    = Done (f, g') ->
    tick_case fuel s g (fed_with s (step_from head (direction s)) f) g'.

(** ** Where food may be *)

(** [f] is off the snake of [s] and strictly inside the walls of [s]: on
    none of the rows and columns the wall test of [update_snake] rejects. *)
Definition food_ok (s : SnakeGame) (f : Position) : Prop :=
  ~ In f (snake s)
  /\ 0 < fst f < game_height s
  /\ 0 < snd f < game_width s
  /\ wall_collision s f = false.

(** ** Well-formed games *)

(** What [__init__] sets up and no method undoes: the play area is the
    screen less four rows and two columns, and the snake has a head. *)
Definition wf (s : SnakeGame) : Prop :=
  game_height s = height s - 4
  /\ game_width s = width s - 2
  /\ snake s <> [].

(** The keys that steer towards [d]. *)
Definition keys_of (d : Direction) : list Z :=
  match d with
  | UP => [KEY_UP; ord_w; ord_W]
  | DOWN => [KEY_DOWN; ord_s; ord_S]
  | LEFT => [KEY_LEFT; ord_a; ord_A]
  | RIGHT => [KEY_RIGHT; ord_d; ord_D]
  end.

(** ** [run] *)

(** The loop of [run], over the keys [stdscr.getch()] gives frame after
    frame: [handle_input], then [update_snake] unless the key was a quit,
    which leaves the loop.  [draw_game] and [time.sleep] write to no
    attribute of the game and are left out here.  The boolean is [False]
    when the loop was left, [True] when the listed keys ran out with the
    loop still going. *)
Fixpoint run (fuel : nat) (keys : list Z) (s : SnakeGame)
  : M (bool * SnakeGame) :=
  match keys with
  | [] => ret (true, s)
  | key :: keys' =>
      r <- handle_input fuel key s ;;
      if fst r
      then s' <- update_snake fuel (snd r) ;; run fuel keys' s'
      else ret (false, snd r)
  end.

(** ** [main]: the size check *)

(** [size.columns < 40 or size.lines < 10]. *)
Definition terminal_too_small (columns lines : Z) : bool :=
  (columns <? 40) || (lines <? 10).

(** ** Shapes of snakes *)

(** Two cells side by side or one above the other. *)
Definition adjacent (p q : Position) : Prop :=
  Z.abs (fst p - fst q) + Z.abs (snd p - snd q) = 1.

(** Each cell of the list touches the next. *)
Fixpoint chain (l : list Position) : Prop :=
  match l with
  | p :: (q :: _) as l' => adjacent p q /\ chain l'
  | _ => True
  end.

(** What holds of every game of a running process (see [reachable]). *)
Record sound (s : SnakeGame) : Prop := mkSound {
  sound_nodup : NoDup (snake s);
  sound_chain : chain (snake s);
  sound_length : (3 <= length (snake s))%nat;
  sound_score : score s = 10 * (Z.of_nat (length (snake s)) - 3);
  sound_food : ~ In (food s) (snake s);
  sound_food_floor : sampled s (food s);
  sound_floor :
    6 <= height s -> 8 <= width s -> Forall (sampled s) (snake s);
  sound_high : game_over s = true -> score s <= high_score s;
  sound_high_pos : 0 <= high_score s;
  sound_timeout : 50 <= timeout s <= 100;
  sound_dims : game_height s = height s - 4 /\ game_width s = width s - 2
}.

(** The head is one step ahead of the cell behind it, in the direction
    the game holds. *)
Definition trailing (s : SnakeGame) : Prop :=
  exists head neck tl,
    snake s = head :: neck :: tl /\ head = step_from neck (direction s).

(** The keys [handle_input] reacts to in some way. *)
Definition steering_keys : list Z :=
  keys_of UP ++ keys_of DOWN ++ keys_of LEFT ++ keys_of RIGHT.

Definition quit_key (key : Z) : bool := (key =? ord_q) || (key =? ord_Q).

Definition restart_key (key : Z) : bool := (key =? ord_r) || (key =? ord_R).

(** ** Drawing: [draw_border], [draw_snake], [draw_food], [draw_score],
    [draw_game] *)

(** The methods of [stdscr] the drawing code calls; [Attron n] and
    [Attroff n] stand for [attron(curses.color_pair(n))] and
    [attroff(curses.color_pair(n))].  A drawing method is the list of the
    calls it makes, in order. *)
Inductive call : Type :=
| Clear
| Refresh
| Attron (pair : Z)
| Attroff (pair : Z)
| Addch (y x : Z) (ch : String.string)
| Addstr (y x : Z) (text : String.string).

(** [range(n)]. *)
Definition range (n : Z) : list Z := map Z.of_nat (seq 0 (Z.to_nat n)).

(** [str(n)] on an integer, as the f-strings of [draw_score] print it. *)
Definition str (n : Z) : String.string :=
  DecimalString.NilZero.string_of_int (Z.to_int n).

(** [len(text)]. *)
Definition len (text : String.string) : Z := Z.of_nat (String.length text).

(** [has_colors] is what [curses.has_colors()] answers. *)
Definition draw_border (has_colors : bool) (s : SnakeGame) : list call :=
  (if has_colors then [Attron 4] else [])
  ++ flat_map (fun x => [Addch 0 x "═"; Addch (game_height s + 1) x "═"])
              (range (width s - 1))
  ++ flat_map (fun y => [Addch y 0 "║"; Addch y (game_width s + 1) "║"])
              (range (game_height s + 2))
  ++ [Addch 0 0 "╔";
      Addch 0 (game_width s + 1) "╗";
      Addch (game_height s + 1) 0 "╚";
      Addch (game_height s + 1) (game_width s + 1) "╝"]
  ++ (if has_colors then [Attroff 4] else []).

(** The loop [for i, (y, x) in enumerate(self.snake)], from index [i]. *)
Fixpoint draw_cells (i : nat) (cells : list Position) : list call :=
  match cells with
  | [] => []
  | (y, x) :: cells' =>
      (if Nat.eqb i 0 then Addch y x "◉" else Addch y x "●")
      :: draw_cells (S i) cells'
  end.

Definition draw_snake (has_colors : bool) (s : SnakeGame) : list call :=
  (if has_colors then [Attron 1] else [])
  ++ draw_cells 0 (snake s)
  ++ (if has_colors then [Attroff 1] else []).

Definition draw_food (has_colors : bool) (s : SnakeGame) : list call :=
  (if has_colors then [Attron 2] else [])
  ++ (let '(y, x) := food s in [Addch y x "◆"])
  ++ (if has_colors then [Attroff 2] else []).

Definition game_over_text : String.string :=
  "GAME OVER! Press 'R' to restart, 'Q' to quit".

Definition instructions : String.string :=
  "Use Arrow Keys or WASD to move, Q to quit".

Definition draw_score (has_colors : bool) (s : SnakeGame) : list call :=
  (if has_colors then [Attron 3] else [])
  ++ (let score_text := String.append "Score: " (str (score s)) in
      [Addstr (game_height s + 2) 2 score_text])
  ++ (let high_score_text :=
        String.append "High Score: " (str (high_score s)) in
      [Addstr (game_height s + 2) 20 high_score_text])
  ++ (if game_over s
      then let x := (width s - len game_over_text) / 2 in
           [Addstr (game_height s + 3) x game_over_text]
      else let x := Z.max 0 ((width s - len instructions) / 2) in
           [Addstr (game_height s + 3) x instructions])
  ++ (if has_colors then [Attroff 3] else []).

Definition draw_game (has_colors : bool) (s : SnakeGame) : list call :=
  [Clear]
  ++ draw_border has_colors s
  ++ draw_snake has_colors s
  ++ draw_food has_colors s
  ++ draw_score has_colors s
  ++ [Refresh].

(** The colour calls. *)
Definition is_attr (c : call) : bool :=
  match c with
  | Attron _ | Attroff _ => true
  | _ => false
  end.

(** The floor cells of a game, row by row. *)
Definition floor_cells (s : SnakeGame) : list Position :=
  list_prod (map (Z.add 1) (range (game_height s - 1)))
            (map (Z.add 1) (range (game_width s - 1))).

(** ** The screen *)

(** What a cell of the window shows: nothing, or the character last put
    there. *)
Definition Screen : Type := Position -> option String.string.

Definition blank : Screen := fun _ => None.

Definition put (scr : Screen) (p : Position) (ch : String.string) : Screen :=
  fun q => if pos_eqb q p then Some ch else scr q.

(** A text goes on one row, a character per cell, from column [x] on. *)
Fixpoint put_text (scr : Screen) (y x : Z) (text : String.string) : Screen :=
  match text with
  | String.EmptyString => scr
  | String.String c rest =>
      put_text (put scr (y, x) (String.String c String.EmptyString))
               y (x + 1) rest
  end.

Definition exec (scr : Screen) (c : call) : Screen :=
  match c with
  | Clear => blank
  | Addch y x ch => put scr (y, x) ch
  | Addstr y x text => put_text scr y x text
  | Refresh | Attron _ | Attroff _ => scr
  end.

(** The window after a list of calls. *)
Definition paint (calls : list call) (scr : Screen) : Screen :=
  fold_left exec calls scr.

(** Settles what a few [put]s in a row leave on a given cell. *)
Ltac decide_cells :=
  unfold put, pos_eqb; cbn [fst snd];
  repeat (match goal with
          | |- context [?a =? ?b] => destruct (Z.eqb_spec a b); try lia
          end; cbn [andb]);
  reflexivity.

(** A call that leaves the cell [p] as it is. *)
Definition misses (c : call) (p : Position) : Prop :=
  match c with
  | Clear => False
  | Addch y x _ => (y, x) <> p
  | Addstr y _ _ => y <> fst p
  | Refresh | Attron _ | Attroff _ => True
  end.

(** ** Concrete games, for running the model *)

(** A random module that gives the listed raw draws, then zeros. *)
Definition rng_of (l : list Z) : Rng := mkRng (fun n => nth n l 0) 0%nat.

(** On a 10 x 40 screen the play area is 6 x 38 and the snake starts at
    [(3,19)]; these draws put the first five foods right in front of it
    ([(3,20)] to [(3,24)]), the sixth at [(1,1)], the next at [(5,5)]. *)
Definition demo_rng : Rng :=
  rng_of [2; 19; 2; 20; 2; 21; 2; 22; 2; 23; 0; 0; 4; 4].

(** A game in progress on that screen, written out. *)
Definition demo_game : SnakeGame :=
  mkGame 0 0 10 40 6 38 [(3, 19); (3, 18); (3, 17)] RIGHT (3, 20) false 100.

(** A 3 x 3 play area (one sampled square of four cells) with the snake's
    head on [(1,1)], and a random module that goes through the four cells,
    starting with the occupied one. *)
Definition tiny_game : SnakeGame :=
  mkGame 0 0 7 5 3 3 [(1, 1)] RIGHT (2, 2) false 100.

Definition tiny_rng : Rng := rng_of [0; 0; 0; 1; 1; 0; 1; 1].

(** A random module that only ever proposes [(1,1)]. *)
Definition stuck_rng : Rng := mkRng (fun _ => 0) 0%nat.

(** The demo game with the head one step from the right wall. *)
Definition edge_game : SnakeGame :=
  mkGame 20 10 10 40 6 38 [(3, 37); (3, 36); (3, 35)] RIGHT (1, 1) false 100.

(** The same game once over. *)
Definition over_game : SnakeGame :=
  mkGame 20 20 10 40 6 38 [(3, 37); (3, 36); (3, 35)] RIGHT (1, 1) true 100.

(** The demo game one plain move later (the food elsewhere). *)
Definition roaming_game : SnakeGame :=
  mkGame 0 0 10 40 6 38 [(3, 19); (3, 18); (3, 17)] RIGHT (1, 1) false 100.

(** The demo game after the key Up and one move. *)
Definition turned_game : SnakeGame :=
  mkGame 0 0 10 40 6 38 [(2, 19); (3, 19); (3, 18)] UP (3, 20) false 100.

(** The edge game after hitting the wall, a restart and one meal. *)
Definition replayed_game : SnakeGame :=
  mkGame 10 20 10 40 6 38 [(3, 20); (3, 19); (3, 18); (3, 17)] RIGHT (3, 21)
         false 100.

(** A whole session on the 10 x 40 screen: five meals in a row (score 50,
    delay 99), straight on into the right wall, the key R, one more move. *)
Definition restart_run : M SnakeGame :=
  s0 <- init 5 10 40 ;;
  s1 <- ticks 5 19 s0 ;;
  r <- handle_input 5 ord_r s1 ;;
  update_snake 5 (snd r).

(** A snake curled in a square, about to move onto its own last cell. *)
Definition curled_game : SnakeGame :=
  mkGame 10 0 10 40 6 38 [(2, 2); (2, 3); (3, 3); (3, 2)] DOWN (1, 1) false
         100.

(** The demo game after the key Up and three moves: over, on the top
    wall. *)
Definition crashed_game : SnakeGame :=
  mkGame 0 0 10 40 6 38 [(1, 19); (2, 19); (3, 19)] UP (3, 20) true 100.

(** The game [reset_game] hands to [generate_food] on a 6 x 4 screen: the
    play area has the single floor cell [(1,1)] and the head is on it. *)
Definition cramped_game : SnakeGame :=
  mkGame 0 0 6 4 2 2 [(1, 1); (1, 0); (1, -1)] RIGHT (0, 0) false 0.

(** The attributes [__init__] has set when it calls [reset_game] on an
    [h] x [w] screen. *)
Definition blank_game (h w : Z) : SnakeGame :=
  mkGame 0 0 h w (h - 4) (w - 2) [] RIGHT (0, 0) false 0.


(** The demo game after five meals in a row. *)
Definition fast_game : SnakeGame :=
  mkGame 50 0 10 40 6 38
         [(3, 24); (3, 23); (3, 22); (3, 21); (3, 20); (3, 19); (3, 18);
          (3, 17)]
         RIGHT (1, 1) false 99.

(** A game over on a 40-column screen. *)
Definition narrow_over_game : SnakeGame :=
  mkGame 0 0 10 40 6 38 [(1, 19); (2, 19); (3, 19)] UP (3, 20) true 100.

(** * Properties *)

(** ** Equality tests and membership *)

Lemma pos_eqb_eq (p q : Position) : pos_eqb p q = true <-> p = q.
Proof.
  destruct p as [py px], q as [qy qx]; unfold pos_eqb; cbn [fst snd].
  rewrite andb_true_iff, !Z.eqb_eq.
  split; [intros [-> ->]; reflexivity | intros [= -> ->]; split; reflexivity].
Qed.

Lemma pos_eqb_neq (p q : Position) : pos_eqb p q = false <-> p <> q.
Proof.
  rewrite <- pos_eqb_eq. destruct (pos_eqb p q); split; congruence.
Qed.

Lemma pos_in_In (p : Position) (l : list Position) :
  pos_in p l = true <-> In p l.
Proof.
  induction l as [|q l IH]; cbn [pos_in In].
  - split; [discriminate | tauto].
  - rewrite orb_true_iff, pos_eqb_eq, IH. intuition congruence.
Qed.

Lemma pos_in_not_In (p : Position) (l : list Position) :
  pos_in p l = false <-> ~ In p l.
Proof.
  rewrite <- pos_in_In. destruct (pos_in p l); split; congruence.
Qed.

Lemma Direction_eqb_eq (a b : Direction) : Direction_eqb a b = true <-> a = b.
Proof. destruct a, b; cbn; split; congruence. Qed.

Lemma value_opposite (d : Direction) :
  value (opposite d) = (- fst (value d), - snd (value d)).
Proof. destruct d; reflexivity. Qed.

Lemma opposite_involutive (d : Direction) : opposite (opposite d) = d.
Proof. destruct d; reflexivity. Qed.

(** ** Lists: dropping the last element *)

Lemma In_removelast {A : Type} (x : A) (l : list A) :
  In x (removelast l) -> In x l.
Proof.
  induction l as [|a l IH]; cbn [removelast]; [tauto|].
  destruct l as [|b l]; [intros []|].
  intros [->|H]; [left; reflexivity | right; apply IH, H].
Qed.

Lemma NoDup_removelast {A : Type} (l : list A) :
  NoDup l -> NoDup (removelast l).
Proof.
  induction 1 as [|a l Hnin Hnd IH]; cbn [removelast]; [constructor|].
  destruct l as [|b l]; constructor.
  - intros H. apply Hnin, In_removelast, H.
  - exact IH.
Qed.

Lemma length_removelast_cons {A : Type} (a : A) (l : list A) :
  length (removelast (a :: l)) = length l.
Proof.
  revert a. induction l as [|b l IH]; intros a; [reflexivity|].
  change (removelast (a :: b :: l)) with (a :: removelast (b :: l)).
  cbn [length]. rewrite IH. reflexivity.
Qed.

(** ** The monad *)

Lemma bind_Done {A B : Type} (m : M A) (k : A -> M B) g b g' :
  bind m k g = Done (b, g') ->
  exists a g1, m g = Done (a, g1) /\ k a g1 = Done (b, g').
Proof.
  unfold bind. destruct (m g) as [[a g1]| |]; try discriminate.
  intros H. exists a, g1. split; [reflexivity | exact H].
Qed.

Lemma bind_of_Done {A B : Type} (m : M A) (k : A -> M B) g a g1 :
  m g = Done (a, g1) -> bind m k g = k a g1.
Proof. unfold bind. intros ->. reflexivity. Qed.

(** ** [random.randint] *)

Lemma randint_Done a b g n g' :
  randint a b g = Done (n, g') ->
  a <= n <= b /\ n = a + draws g (cursor g) mod (b - a + 1) /\ g' = skip 1 g.
Proof.
  unfold randint. destruct (Z.ltb_spec b a) as [Hlt|Hge]; [discriminate|].
  intros [= <- <-].
  pose proof (Z.mod_pos_bound (draws g (cursor g)) (b - a + 1)).
  repeat split; lia.
Qed.

Lemma randint_ok a b g :
  a <= b ->
  randint a b g = Done (a + draws g (cursor g) mod (b - a + 1), skip 1 g).
Proof.
  intros H. unfold randint.
  destruct (Z.ltb_spec b a); [lia | reflexivity].
Qed.

Lemma skip_skip n m g : skip n (skip m g) = skip (n + m) g.
Proof. unfold skip; cbn. f_equal. lia. Qed.

(** ** [generate_food] *)

(** One pass of the loop, when both ranges are non-empty. *)
Lemma generate_food_step fuel s g :
  2 <= game_height s -> 2 <= game_width s ->
  generate_food (S fuel) s g =
    if pos_in (candidate s g) (snake s)
    then generate_food fuel s (skip 2 g)
    else Done (candidate s g, skip 2 g).
Proof.
  intros Hh Hw. cbn [generate_food].
  rewrite (bind_of_Done _ _ g _ _ (randint_ok 1 (game_height s - 1) g ltac:(lia))).
  rewrite (bind_of_Done _ _ _ _ _ (randint_ok 1 (game_width s - 1) _ ltac:(lia))).
  rewrite skip_skip. cbn [Nat.add].
  replace (game_height s - 1 - 1 + 1) with (game_height s - 1) by lia.
  replace (game_width s - 1 - 1 + 1) with (game_width s - 1) by lia.
  change (draws (skip 1 g) (cursor (skip 1 g))) with (draws g (S (cursor g))).
  fold (candidate s g).
  destruct (pos_in (candidate s g) (snake s)); reflexivity.
Qed.

(** What [generate_food] returns is off the snake and inside the ranges it
    samples. *)
Lemma generate_food_Done fuel s g f g' :
  generate_food fuel s g = Done (f, g') ->
  pos_in f (snake s) = false
  /\ 1 <= fst f <= game_height s - 1
  /\ 1 <= snd f <= game_width s - 1.
Proof.
  revert g. induction fuel as [|fuel IH]; intros g; [discriminate|].
  cbn [generate_food]. intros H.
  apply bind_Done in H as (y & g1 & Hy & H).
  apply bind_Done in H as (x & g2 & Hx & H).
  apply randint_Done in Hy as (Hy & _ & _).
  apply randint_Done in Hx as (Hx & _ & _).
  destruct (pos_in (y, x) (snake s)) eqn:Hin; cbn [negb] in H.
  - exact (IH _ H).
  - injection H as <- <-. cbn [fst snd]. repeat split; try lia. exact Hin.
Qed.

Lemma attempt_0 s g : attempt s g 0 = candidate s g.
Proof. reflexivity. Qed.

Lemma attempt_S s g k : attempt s g (S k) = attempt s (skip 2 g) k.
Proof.
  unfold attempt. rewrite skip_skip.
  replace (2 * k + 2)%nat with (2 * S k)%nat by lia. reflexivity.
Qed.

(** The loop returns the first cell off the snake that comes up, having
    consumed two draws per pass. *)
Lemma generate_food_first_free s :
  2 <= game_height s -> 2 <= game_width s ->
  forall k g fuel,
    (forall j, (j < k)%nat -> pos_in (attempt s g j) (snake s) = true) ->
    pos_in (attempt s g k) (snake s) = false ->
    (k < fuel)%nat ->
    generate_food fuel s g = Done (attempt s g k, skip (2 * S k) g).
Proof.
  intros Hh Hw. induction k as [|k IH]; intros g fuel Hbusy Hfree Hfuel.
  - destruct fuel as [|fuel]; [lia|].
    rewrite generate_food_step by assumption.
    rewrite attempt_0 in Hfree. rewrite Hfree. reflexivity.
  - destruct fuel as [|fuel]; [lia|].
    rewrite generate_food_step by assumption.
    pose proof (Hbusy 0%nat ltac:(lia)) as H0. rewrite attempt_0 in H0.
    rewrite H0, attempt_S.
    rewrite (IH (skip 2 g) fuel).
    + rewrite skip_skip.
      replace (2 * S k + 2)%nat with (2 * S (S k))%nat by lia. reflexivity.
    + intros j Hj. rewrite <- attempt_S. apply Hbusy. lia.
    + rewrite <- attempt_S. exact Hfree.
    + lia.
Qed.

(** With every pass landing on the snake the loop never returns. *)
Lemma generate_food_spins s g :
  2 <= game_height s -> 2 <= game_width s ->
  (forall k, pos_in (attempt s g k) (snake s) = true) ->
  forall fuel, generate_food fuel s g = OutOfFuel.
Proof.
  intros Hh Hw Hbusy fuel. revert g Hbusy.
  induction fuel as [|fuel IH]; intros g Hbusy; [reflexivity|].
  rewrite generate_food_step by assumption.
  pose proof (Hbusy 0%nat) as H0. rewrite attempt_0 in H0. rewrite H0.
  apply IH. intros k. rewrite <- attempt_S. apply Hbusy.
Qed.

(** The first index at which a boolean sequence is false. *)
Lemma first_false (P : nat -> bool) (k : nat) :
  P k = false ->
  exists k0, (k0 <= k)%nat /\ P k0 = false
             /\ forall j, (j < k0)%nat -> P j = true.
Proof.
  induction k as [k IH] using (well_founded_induction Nat.lt_wf_0).
  intros Hk.
  destruct (existsb (fun j => negb (P j)) (seq 0 k)) eqn:E.
  - apply existsb_exists in E as (j & Hj & HPj).
    apply in_seq in Hj. apply negb_true_iff in HPj.
    destruct (IH j ltac:(lia) HPj) as (k0 & Hle & Hk0 & Hmin).
    exists k0. repeat split; [lia | exact Hk0 | exact Hmin].
  - exists k. repeat split; [lia | exact Hk |].
    intros j Hj.
    destruct (P j) eqn:HPj; [reflexivity|].
    assert (existsb (fun j => negb (P j)) (seq 0 k) = true) as E'.
    { apply existsb_exists. exists j. split.
      - apply in_seq. lia.
      - rewrite HPj. reflexivity. }
    congruence.
Qed.

(** The stuck module of the tiny game: a free cell exists and the loop
    still never returns. *)
Lemma generate_food_stuck (fuel : nat) :
  sampled tiny_game (2, 2) /\ pos_in (2, 2) (snake tiny_game) = false
  /\ generate_food fuel tiny_game stuck_rng = OutOfFuel.
Proof.
  split; [|split].
  - unfold sampled; cbn; lia.
  - reflexivity.
  - apply generate_food_spins; [cbn; lia | cbn; lia |].
    intros k. reflexivity.
Qed.

(** C9. [generate_food] terminates whenever a cell of the sampled region is
    off the snake, the random module leaving no cell of the region out: from
    some pass [k] on, any fuel above [k] gives a result, which is the first
    cell off the snake that came up; the [k] passes before it landed on the
    snake and were retried. *)
Theorem generate_food_terminates (s : SnakeGame) (g : Rng) :
  (exists p, sampled s p /\ pos_in p (snake s) = false) ->
  exhaustive s g ->
  exists k,
    (forall j, (j < k)%nat -> pos_in (attempt s g j) (snake s) = true)
    /\ pos_in (attempt s g k) (snake s) = false
    /\ forall fuel, (k < fuel)%nat ->
         generate_food fuel s g = Done (attempt s g k, skip (2 * S k) g).
Proof.
  intros (p & Hp & Hfree) Hex.
  destruct (Hex p Hp) as (k1 & Hk1).
  destruct (first_false (fun j => pos_in (attempt s g j) (snake s)) k1)
    as (k & _ & Hk & Hmin).
  { cbn beta. rewrite Hk1. exact Hfree. }
  exists k. split; [exact Hmin | split; [exact Hk |]].
  intros fuel Hfuel. destruct Hp as [Hy Hx].
  apply generate_food_first_free; try assumption; lia.
Qed.

Lemma generate_food_terminates_witness :
  exists k,
    (forall j, (j < k)%nat ->
       pos_in (attempt tiny_game tiny_rng j) (snake tiny_game) = true)
    /\ pos_in (attempt tiny_game tiny_rng k) (snake tiny_game) = false
    /\ forall fuel, (k < fuel)%nat ->
         generate_food fuel tiny_game tiny_rng
         = Done (attempt tiny_game tiny_rng k, skip (2 * S k) tiny_rng).
Proof.
  apply (generate_food_terminates tiny_game tiny_rng).
  - exists (2, 2). split; [unfold sampled; cbn; lia | reflexivity].
  - intros [y x] [Hy Hx]. cbn in Hy, Hx.
    assert (y = 1 \/ y = 2) as [-> | ->] by lia;
      (assert (x = 1 \/ x = 2) as [-> | ->] by lia).
    + exists 0%nat. reflexivity.
    + exists 1%nat. reflexivity.
    + exists 2%nat. reflexivity.
    + exists 3%nat. reflexivity.
Defined.

(** ** [reset_game] and [__init__], case by case *)

Lemma reset_game_of_food fuel s g f g' :
  generate_food fuel (set_direction (set_snake s (start_snake s)) RIGHT) g
  = Done (f, g') ->
  reset_game fuel s g = Done (reset_with s f, g').
Proof.
  intros H. unfold reset_game. rewrite (bind_of_Done _ _ _ _ _ H).
  reflexivity.
Qed.

Lemma reset_game_Done fuel s g s' g' :
  reset_game fuel s g = Done (s', g') ->
  exists f,
    generate_food fuel (set_direction (set_snake s (start_snake s)) RIGHT) g
    = Done (f, g')
    /\ s' = reset_with s f.
Proof.
  unfold reset_game. intros H.
  apply bind_Done in H as (f & g1 & Hf & H).
  injection H as <- <-. exists f. split; [exact Hf | reflexivity].
Qed.

Lemma init_Done fuel h w g s g' :
  init fuel h w g = Done (s, g') ->
  exists f,
    s = mkGame 0 0 h w (h - 4) (w - 2)
               [((h - 4) / 2, (w - 2) / 2); ((h - 4) / 2, (w - 2) / 2 - 1);
                ((h - 4) / 2, (w - 2) / 2 - 2)]
               RIGHT f false 100
    /\ pos_in f (snake s) = false
    /\ sampled s f.
Proof.
  unfold init. intros H.
  apply bind_Done in H as (s1 & g1 & Hr & H).
  injection H as <- <-.
  apply reset_game_Done in Hr as (f & Hf & ->).
  apply generate_food_Done in Hf as (Hin & Hy & Hx).
  exists f. split; [reflexivity | split; [exact Hin | split; assumption]].
Qed.

(** ** [update_snake], case by case *)

Lemma update_snake_over fuel s g :
  game_over s = true -> update_snake fuel s g = Done (s, g).
Proof. intros H. unfold update_snake. rewrite H. reflexivity. Qed.

Lemma update_snake_collision fuel s g head tl :
  game_over s = false ->
  snake s = head :: tl ->
  wall_collision s (step_from head (direction s)) = true
  \/ pos_in (step_from head (direction s)) (snake s) = true ->
  update_snake fuel s g = Done (end_game s, g).
Proof.
  intros Hover Hsn Hc. unfold update_snake. rewrite Hover, Hsn.
  rewrite <- Hsn.
  destruct (wall_collision s (step_from head (direction s))); [reflexivity|].
  destruct Hc as [Hc|Hc]; [discriminate|]. rewrite Hc. reflexivity.
Qed.

Lemma update_snake_move fuel s g head tl :
  game_over s = false ->
  snake s = head :: tl ->
  wall_collision s (step_from head (direction s)) = false ->
  pos_in (step_from head (direction s)) (snake s) = false ->
  pos_eqb (step_from head (direction s)) (food s) = false ->
  update_snake fuel s g = Done (moved s (step_from head (direction s)), g).
Proof.
  intros Hover Hsn Hw Hs Hf. unfold update_snake. rewrite Hover, Hsn.
  rewrite <- Hsn, Hw, Hs. cbn [set_snake food snake]. rewrite Hf.
  unfold moved, set_snake. cbn [score high_score height width game_height
    game_width snake direction food game_over timeout].
  rewrite Hsn. reflexivity.
Qed.

Lemma update_snake_eat_eq fuel s g head tl :
  game_over s = false ->
  snake s = head :: tl ->
  wall_collision s (step_from head (direction s)) = false ->
  pos_in (step_from head (direction s)) (snake s) = false ->
  pos_eqb (step_from head (direction s)) (food s) = true ->
  update_snake fuel s g
  = (f <- generate_food fuel (fed s (step_from head (direction s))) ;;
     ret (fed_with s (step_from head (direction s)) f)) g.
Proof.
  intros Hover Hsn Hw Hs Hf. unfold update_snake. rewrite Hover, Hsn.
  rewrite <- Hsn, Hw, Hs. cbn [set_snake food snake]. rewrite Hf.
  reflexivity.
Qed.

Lemma update_snake_eat fuel s g head tl f g' :
  game_over s = false ->
  snake s = head :: tl ->
  wall_collision s (step_from head (direction s)) = false ->
  pos_in (step_from head (direction s)) (snake s) = false ->
  pos_eqb (step_from head (direction s)) (food s) = true ->
  generate_food fuel (fed s (step_from head (direction s))) g = Done (f, g') ->
  update_snake fuel s g
  = Done (fed_with s (step_from head (direction s)) f, g').
Proof.
  intros Hover Hsn Hw Hs Hf Hg.
  rewrite (update_snake_eat_eq fuel s g head tl) by assumption.
  rewrite (bind_of_Done _ _ _ _ _ Hg). reflexivity.
Qed.

Lemma update_snake_Done fuel s g s' g' :
  update_snake fuel s g = Done (s', g') -> tick_case fuel s g s' g'.
Proof.
  intros H.
  destruct (game_over s) eqn:Hover.
  { rewrite update_snake_over in H by assumption.
    injection H as <- <-. now apply tick_over. }
  destruct (snake s) as [|head tl] eqn:Hsn.
  { unfold update_snake in H. rewrite Hover, Hsn in H. discriminate. }
  destruct (wall_collision s (step_from head (direction s))) eqn:Hw.
  { rewrite (update_snake_collision fuel s g head tl) in H by auto.
    injection H as <- <-. eapply tick_collision; eauto. }
  destruct (pos_in (step_from head (direction s)) (snake s)) eqn:Hs.
  { rewrite (update_snake_collision fuel s g head tl) in H by auto.
    injection H as <- <-. eapply tick_collision; eauto. }
  destruct (pos_eqb (step_from head (direction s)) (food s)) eqn:Hf.
  - destruct (generate_food fuel (fed s (step_from head (direction s))) g)
      as [[f g1]| |] eqn:Hg.
    + rewrite (update_snake_eat fuel s g head tl f g1) in H by assumption.
      injection H as <- <-. eapply tick_eat; eauto.
    + rewrite (update_snake_eat_eq fuel s g head tl) in H by assumption.
      unfold bind in H. rewrite Hg in H. discriminate.
    + rewrite (update_snake_eat_eq fuel s g head tl) in H by assumption.
      unfold bind in H. rewrite Hg in H. discriminate.
  - rewrite (update_snake_move fuel s g head tl) in H by assumption.
    injection H as <- <-. eapply tick_move; eauto.
Qed.

(** ** [handle_input], case by case *)

Lemma set_direction_same (s : SnakeGame) : set_direction s (direction s) = s.
Proof. destruct s; reflexivity. Qed.

(** A steering key turns the snake unless it asks for the reversal. *)
Lemma handle_input_move fuel key d s g :
  game_over s = false ->
  In key (keys_of d) ->
  handle_input fuel key s g
  = Done ((true, if Direction_eqb (direction s) (opposite d)
                 then s else set_direction s d), g).
Proof.
  intros Hover Hkey. unfold handle_input. rewrite Hover.
  destruct d; cbn [keys_of In] in Hkey;
    destruct Hkey as [<-|[<-|[<-|[]]]]; cbn; destruct (direction s);
    reflexivity.
Qed.

(** The three ways [handle_input] returns. *)
Lemma handle_input_Done fuel key s g b s' g' :
  handle_input fuel key s g = Done ((b, s'), g') ->
  (s' = s /\ g' = g)
  \/ (game_over s = false /\ g' = g /\ exists d, s' = set_direction s d)
  \/ (game_over s = true /\ reset_game fuel s g = Done (s', g')).
Proof.
  unfold handle_input. intros H.
  destruct ((key =? ord_q) || (key =? ord_Q)).
  { injection H as <- <- <-. left. split; reflexivity. }
  destruct ((key =? ord_r) || (key =? ord_R)).
  { destruct (game_over s) eqn:Hover.
    - apply bind_Done in H as (s1 & g1 & Hr & H).
      injection H as <- <- <-. right. right. split; [reflexivity | exact Hr].
    - injection H as <- <- <-. left. split; reflexivity. }
  destruct (game_over s) eqn:Hover; cbn [negb] in H.
  { injection H as <- <- <-. left. split; reflexivity. }
  repeat match type of H with
         | (if ?c then _ else _) _ = _ => destruct c
         end;
    injection H as <- <- <-;
    solve [ left; split; reflexivity
          | right; left; split; [reflexivity | split; [reflexivity | eauto]] ].
Qed.

(** With the game on, [handle_input] returns for every key, draws nothing
    and writes to [direction] at most. *)
Lemma handle_input_playing fuel key s g :
  game_over s = false ->
  exists b d, handle_input fuel key s g = Done ((b, set_direction s d), g).
Proof.
  intros Hover. unfold handle_input. rewrite Hover. cbn [negb].
  repeat match goal with
         | |- context [if ?c then _ else _] => destruct c
         end;
    solve [ eexists; eexists; reflexivity
          | eexists; exists (direction s); rewrite set_direction_same;
            reflexivity ].
Qed.

(** ** Collisions *)

(** The wall test, in plain inequalities: rows [1 .. game_height - 1] and
    columns [1 .. game_width - 1] are the floor. *)
Lemma wall_collision_iff s p :
  wall_collision s p = true <->
  fst p <= 0 \/ fst p >= game_height s \/ snd p <= 0 \/ snd p >= game_width s.
Proof.
  unfold wall_collision.
  rewrite !orb_true_iff, !Z.leb_le, !Z.geb_le. lia.
Qed.

Lemma wall_collision_sampled s p :
  wall_collision s p = false <-> sampled s p.
Proof.
  unfold sampled. split.
  - intros H. destruct (wall_collision s p) eqn:E; [discriminate|].
    assert (~ (fst p <= 0 \/ fst p >= game_height s
               \/ snd p <= 0 \/ snd p >= game_width s)) as Hn.
    { intros Hc. apply wall_collision_iff in Hc. congruence. }
    lia.
  - intros H. destruct (wall_collision s p) eqn:E; [|reflexivity].
    apply wall_collision_iff in E. lia.
Qed.

Lemma high_score_end_game s :
  high_score (end_game s) = Z.max (high_score s) (score s).
Proof.
  unfold end_game. cbn [set_game_over score high_score].
  destruct (Z.gtb_spec (score s) (high_score s));
    cbn [set_high_score set_game_over high_score]; lia.
Qed.

Lemma end_game_frame s :
  game_over (end_game s) = true
  /\ snake (end_game s) = snake s
  /\ food (end_game s) = food s
  /\ score (end_game s) = score s
  /\ direction (end_game s) = direction s
  /\ timeout (end_game s) = timeout s
  /\ game_height (end_game s) = game_height s
  /\ game_width (end_game s) = game_width s
  /\ height (end_game s) = height s
  /\ width (end_game s) = width s.
Proof.
  unfold end_game. cbn [set_game_over score high_score].
  destruct (score s >? high_score s); repeat split; reflexivity.
Qed.

(** C1. With the game on, a new head [head + direction.value] on or outside
    the boundary of the grid (row <= 0, row >= height - 1, col <= 0 or
    col >= width - 1) makes [update_snake] set [game_over], set [high_score]
    to the larger of [high_score] and [score], and return with the snake,
    the food and the score as they were (and without a draw).  The grid
    [(height, width)] is any one whose outermost ring is wall to the code:
    [game_height <= height - 1] and [game_width <= width - 1], as for the
    grid that ends on the first wall row and column
    ([game_height + 1], [game_width + 1]) and for the screen itself, of which
    [__init__] takes four rows and two columns off. *)
Theorem wall_collision_ends_game
    (fuel : nat) (s : SnakeGame) (g : Rng) (head : Position)
    (tl : list Position) (grid_h grid_w : Z) :
  game_over s = false ->
  snake s = head :: tl ->
  game_height s <= grid_h - 1 ->
  game_width s <= grid_w - 1 ->
  fst (step_from head (direction s)) <= 0
  \/ fst (step_from head (direction s)) >= grid_h - 1
  \/ snd (step_from head (direction s)) <= 0
  \/ snd (step_from head (direction s)) >= grid_w - 1 ->
  exists s',
    update_snake fuel s g = Done (s', g)
    /\ game_over s' = true
    /\ high_score s' = Z.max (high_score s) (score s)
    /\ snake s' = snake s
    /\ food s' = food s
    /\ score s' = score s.
Proof.
  intros Hover Hsn Hh Hw Hout.
  exists (end_game s).
  destruct (end_game_frame s) as (Ho & Hs & Hf & Hsc & _).
  split; [|repeat split; try assumption; apply high_score_end_game].
  apply (update_snake_collision fuel s g head tl Hover Hsn).
  left. apply wall_collision_iff. lia.
Qed.

Lemma wall_collision_ends_game_witness :
  exists s',
    update_snake 1 edge_game demo_rng = Done (s', demo_rng)
    /\ game_over s' = true
    /\ high_score s' = Z.max (high_score edge_game) (score edge_game)
    /\ snake s' = snake edge_game
    /\ food s' = food edge_game
    /\ score s' = score edge_game.
Proof.
  apply (wall_collision_ends_game 1 edge_game demo_rng (3, 37)
           [(3, 36); (3, 35)] 7 39).
  - reflexivity.
  - reflexivity.
  - cbn. lia.
  - cbn. lia.
  - cbn. lia.
Defined.

(** C6. Once the game is over [update_snake] changes nothing, however many
    times it is called: the whole game object and the random module are the
    same afterwards. *)
Theorem game_over_freezes (fuel : nat) (s : SnakeGame) (g : Rng) (n : nat) :
  game_over s = true ->
  ticks fuel n s g = Done (s, g).
Proof.
  intros Hover. induction n as [|n IH]; [reflexivity|].
  cbn [ticks].
  rewrite (bind_of_Done _ _ _ _ _ (update_snake_over fuel s g Hover)).
  exact IH.
Qed.

Lemma game_over_freezes_witness :
  ticks 0 5 over_game demo_rng = Done (over_game, demo_rng).
Proof.
  apply (game_over_freezes 0 over_game demo_rng 5). reflexivity.
Defined.

(** ** Steering *)

(** C4. With the game on and the snake heading [D], a steering key for the
    exact reversal of [D] leaves [direction] at [D]; a steering key for any
    other direction (the same one or a turn) sets [direction] to it.  Either
    way [handle_input] returns [True]. *)
Theorem reversal_rule
    (fuel : nat) (s : SnakeGame) (g : Rng) (d : Direction) (key : Z) :
  game_over s = false ->
  In key (keys_of d) ->
  exists s',
    handle_input fuel key s g = Done ((true, s'), g)
    /\ (d = opposite (direction s) -> direction s' = direction s)
    /\ (d <> opposite (direction s) -> direction s' = d).
Proof.
  intros Hover Hkey.
  rewrite (handle_input_move fuel key d s g Hover Hkey).
  eexists. split; [reflexivity|].
  destruct (Direction_eqb (direction s) (opposite d)) eqn:E.
  - apply Direction_eqb_eq in E. split; [reflexivity|].
    intros Hd. exfalso. apply Hd. rewrite E. symmetry. apply opposite_involutive.
  - split; [|reflexivity].
    intros ->. rewrite opposite_involutive in E.
    assert (Direction_eqb (direction s) (direction s) = true) as E'
      by (apply Direction_eqb_eq; reflexivity).
    congruence.
Qed.

Lemma reversal_rule_witness :
  (exists s',
     handle_input 0 ord_a demo_game demo_rng = Done ((true, s'), demo_rng)
     /\ (LEFT = opposite (direction demo_game) ->
         direction s' = direction demo_game)
     /\ (LEFT <> opposite (direction demo_game) -> direction s' = LEFT))
  /\ (exists s',
     handle_input 0 KEY_UP demo_game demo_rng = Done ((true, s'), demo_rng)
     /\ (UP = opposite (direction demo_game) ->
         direction s' = direction demo_game)
     /\ (UP <> opposite (direction demo_game) -> direction s' = UP)).
Proof.
  split.
  - apply (reversal_rule 0 demo_game demo_rng LEFT ord_a).
    + reflexivity.
    + cbn. tauto.
  - apply (reversal_rule 0 demo_game demo_rng UP KEY_UP).
    + reflexivity.
    + cbn. tauto.
Defined.

(** C10. With the game on, [handle_input] writes to [direction] at most,
    for a steering key as for any other key: the snake, the food, the score,
    the high score, [game_over], the bounds, the delay and the random module
    are the same afterwards. *)
Theorem handle_input_frame (fuel : nat) (key : Z) (s : SnakeGame) (g : Rng) :
  game_over s = false ->
  exists b s',
    handle_input fuel key s g = Done ((b, s'), g)
    /\ snake s' = snake s
    /\ food s' = food s
    /\ score s' = score s
    /\ high_score s' = high_score s
    /\ game_over s' = game_over s
    /\ height s' = height s /\ width s' = width s
    /\ game_height s' = game_height s /\ game_width s' = game_width s
    /\ timeout s' = timeout s.
Proof.
  intros Hover.
  destruct (handle_input_playing fuel key s g Hover) as (b & d & H).
  exists b, (set_direction s d). split; [exact H|].
  repeat split; reflexivity.
Qed.

Lemma handle_input_frame_witness :
  exists b s',
    handle_input 0 ord_w demo_game demo_rng = Done ((b, s'), demo_rng)
    /\ snake s' = snake demo_game
    /\ food s' = food demo_game
    /\ score s' = score demo_game
    /\ high_score s' = high_score demo_game
    /\ game_over s' = game_over demo_game
    /\ height s' = height demo_game /\ width s' = width demo_game
    /\ game_height s' = game_height demo_game
    /\ game_width s' = game_width demo_game
    /\ timeout s' = timeout demo_game.
Proof.
  apply (handle_input_frame 0 ord_w demo_game demo_rng). reflexivity.
Defined.

(** ** Growth *)

(** A call of [update_snake] that returns with the game still on was a move
    or a meal. *)
Lemma tick_playing fuel s g s' g' :
  game_over s = false ->
  update_snake fuel s g = Done (s', g') ->
  game_over s' = false ->
  exists head tl,
    snake s = head :: tl
    /\ wall_collision s (step_from head (direction s)) = false
    /\ pos_in (step_from head (direction s)) (snake s) = false.
Proof.
  intros Hover H Hover'. apply update_snake_Done in H.
  destruct H as [Ho | head tl _ Hsn Hc | head tl _ Hsn Hw Hs Hf
                | head tl f g' _ Hsn Hw Hs Hf Hg].
  - congruence.
  - destruct (end_game_frame s) as (Ho & _). congruence.
  - exists head, tl. auto.
  - exists head, tl. auto.
Qed.

(** C3. A call of [update_snake] that does not end the game (the game is on
    and the new head hits neither a wall nor the snake): when the new head
    is the food, the call returns as soon as [generate_food] does, with the
    new head in front of the whole snake (one cell longer) and the score up
    by 10; otherwise it returns with the new head in front and the last cell
    gone (same length) and the score as it was. *)
Theorem growth_law
    (fuel : nat) (s : SnakeGame) (g : Rng) (head : Position)
    (tl : list Position) :
  game_over s = false ->
  snake s = head :: tl ->
  wall_collision s (step_from head (direction s)) = false ->
  pos_in (step_from head (direction s)) (snake s) = false ->
  (step_from head (direction s) = food s ->
   forall f g',
     generate_food fuel (fed s (step_from head (direction s))) g
     = Done (f, g') ->
     exists s',
       update_snake fuel s g = Done (s', g')
       /\ game_over s' = false
       /\ snake s' = step_from head (direction s) :: snake s
       /\ length (snake s') = S (length (snake s))
       /\ score s' = score s + 10)
  /\ (step_from head (direction s) <> food s ->
      exists s',
        update_snake fuel s g = Done (s', g)
        /\ game_over s' = false
        /\ snake s' = step_from head (direction s) :: removelast (snake s)
        /\ length (snake s') = length (snake s)
        /\ score s' = score s).
Proof.
  intros Hover Hsn Hw Hs. split.
  - intros Heq f g' Hg. apply pos_eqb_eq in Heq.
    exists (fed_with s (step_from head (direction s)) f).
    split; [eapply update_snake_eat; eassumption|].
    cbn [fed_with game_over snake score length].
    repeat split; try reflexivity. exact Hover.
  - intros Hne. apply pos_eqb_neq in Hne.
    exists (moved s (step_from head (direction s))).
    split; [eapply update_snake_move; eassumption|].
    unfold moved. cbn [set_snake game_over snake score length].
    repeat split; try reflexivity; [exact Hover|].
    rewrite Hsn, length_removelast_cons. reflexivity.
Qed.

Lemma growth_law_witness :
  (exists s',
     update_snake 2 demo_game demo_rng = Done (s', skip 4 demo_rng)
     /\ game_over s' = false
     /\ snake s' = step_from (3, 19) (direction demo_game) :: snake demo_game
     /\ length (snake s') = S (length (snake demo_game))
     /\ score s' = score demo_game + 10)
  /\ (exists s',
        update_snake 2 roaming_game demo_rng = Done (s', demo_rng)
        /\ game_over s' = false
        /\ snake s' = step_from (3, 19) (direction roaming_game)
                      :: removelast (snake roaming_game)
        /\ length (snake s') = length (snake roaming_game)
        /\ score s' = score roaming_game).
Proof.
  split.
  - apply (proj1 (growth_law 2 demo_game demo_rng (3, 19) [(3, 18); (3, 17)]
                    eq_refl eq_refl eq_refl eq_refl)
             eq_refl (3, 21) (skip 4 demo_rng)).
    reflexivity.
  - apply (proj2 (growth_law 2 roaming_game demo_rng (3, 19)
                    [(3, 18); (3, 17)] eq_refl eq_refl eq_refl eq_refl)).
    cbn. discriminate.
Defined.

(** ** Food placement *)

Lemma generate_food_ok fuel s g f g' :
  generate_food fuel s g = Done (f, g') -> food_ok s f.
Proof.
  intros H. apply generate_food_Done in H as (Hin & Hy & Hx).
  unfold food_ok. split; [apply pos_in_not_In, Hin|].
  split; [lia | split; [lia|]].
  apply wall_collision_sampled. split; assumption.
Qed.

(** C5. Right after the food is set it is off the snake and strictly inside
    the walls: for whatever [generate_food] returns, for the food of the
    game [reset_game] leaves, and for the food of the game [update_snake]
    leaves when the snake ate (measured against the grown snake). *)
Theorem food_placement (fuel : nat) (s : SnakeGame) (g : Rng) :
  (forall f g', generate_food fuel s g = Done (f, g') -> food_ok s f)
  /\ (forall s' g',
        reset_game fuel s g = Done (s', g') -> food_ok s' (food s'))
  /\ (forall head tl s' g',
        game_over s = false ->
        snake s = head :: tl ->
        step_from head (direction s) = food s ->
        update_snake fuel s g = Done (s', g') ->
        game_over s' = false ->
        food_ok s' (food s')).
Proof.
  split; [|split].
  - intros f g' H. exact (generate_food_ok _ _ _ _ _ H).
  - intros s' g' H. apply reset_game_Done in H as (f & Hf & ->).
    apply generate_food_ok in Hf. exact Hf.
  - intros head tl s' g' Hover Hsn Heq H Hover'.
    apply update_snake_Done in H.
    destruct H as [Ho | head' tl' _ Hsn' Hc | head' tl' _ Hsn' Hw Hs Hf
                  | head' tl' f g' _ Hsn' Hw Hs Hf Hg].
    + congruence.
    + destruct (end_game_frame s) as (Ho & _). congruence.
    + rewrite Hsn in Hsn'. injection Hsn' as <- <-.
      apply pos_eqb_neq in Hf. contradiction.
    + apply generate_food_ok in Hg. exact Hg.
Qed.

Lemma food_placement_witness :
  food_ok demo_game (3, 20)
  /\ food_ok (reset_with demo_game (3, 20)) (3, 20)
  /\ food_ok (fed_with demo_game (3, 20) (3, 21)) (3, 21).
Proof.
  split; [|split].
  - apply (proj1 (food_placement 2 demo_game demo_rng)
             (3, 20) (skip 2 demo_rng)).
    reflexivity.
  - apply (proj1 (proj2 (food_placement 2 demo_game demo_rng))
             (reset_with demo_game (3, 20)) (skip 2 demo_rng)).
    reflexivity.
  - apply (proj2 (proj2 (food_placement 2 demo_game demo_rng))
             (3, 19) [(3, 18); (3, 17)]
             (fed_with demo_game (3, 20) (3, 21)) (skip 4 demo_rng));
      reflexivity.
Defined.

(** ** The snake never overlaps itself *)

Lemma NoDup_start_snake s : NoDup (start_snake s).
Proof.
  unfold start_snake. repeat constructor; cbn [In].
  - intros [H|[H|[]]]; injection H; lia.
  - intros [H|[]]; injection H; lia.
  - tauto.
Qed.

(** What every game of a running process satisfies. *)
Lemma reachable_inv s g :
  reachable s g -> NoDup (snake s) /\ wf s.
Proof.
  induction 1 as [fuel h w g s g' Hinit
                 | fuel key s g b s' g' Hreach IH Hin
                 | fuel s g s' g' Hreach IH Htick].
  - apply init_Done in Hinit as (f & -> & _).
    split.
    + apply (NoDup_start_snake
               (mkGame 0 0 h w (h - 4) (w - 2) [] RIGHT (0, 0) false 0)).
    + unfold wf; cbn. repeat split; discriminate.
  - destruct IH as (Hnd & Hh & Hw & Hne).
    apply handle_input_Done in Hin
      as [(-> & _) | [(_ & _ & d & ->) | (_ & Hr)]].
    + unfold wf; auto.
    + unfold wf; auto.
    + apply reset_game_Done in Hr as (f & _ & ->).
      split; [apply NoDup_start_snake|].
      unfold wf; cbn [reset_with game_height game_width height width snake].
      repeat split; try assumption. discriminate.
  - destruct IH as (Hnd & Hh & Hw & Hne).
    apply update_snake_Done in Htick.
    destruct Htick as [Ho | head tl _ Hsn Hc | head tl _ Hsn Hwc Hs Hf
                      | head tl f g' _ Hsn Hwc Hs Hf Hg].
    + unfold wf; auto.
    + destruct (end_game_frame s) as (_ & Es & _ & _ & _ & _ & Egh & Egw & Eh & Ew).
      unfold wf. rewrite Es, Egh, Egw, Eh, Ew. auto.
    + split.
      * unfold moved; cbn [set_snake snake]. constructor.
        -- intros Hin. apply In_removelast in Hin.
           apply pos_in_not_In in Hs. contradiction.
        -- apply NoDup_removelast, Hnd.
      * unfold wf, moved; cbn. repeat split; try assumption. discriminate.
    + split.
      * cbn [fed_with snake]. constructor; [|exact Hnd].
        apply pos_in_not_In, Hs.
      * unfold wf; cbn. repeat split; try assumption. discriminate.
Qed.

(** C2. In every game reachable from the one [__init__] builds by calls of
    [handle_input] and [update_snake], the snake holds no position twice
    while [game_over] is false. *)
Theorem snake_no_duplicates (s : SnakeGame) (g : Rng) :
  reachable s g ->
  game_over s = false ->
  NoDup (snake s).
Proof.
  intros Hreach _. exact (proj1 (reachable_inv s g Hreach)).
Qed.

Lemma snake_no_duplicates_witness : NoDup (snake turned_game).
Proof.
  apply (snake_no_duplicates turned_game (skip 2 demo_rng)).
  - apply (reach_tick 0 (set_direction demo_game UP) (skip 2 demo_rng)).
    + apply (reach_input 0 KEY_UP demo_game (skip 2 demo_rng) true).
      * apply (reach_init 1 10 40 demo_rng). reflexivity.
      * reflexivity.
    + reflexivity.
  - reflexivity.
Defined.

(** ** The high score *)

Lemma run_op_high_score fuel o s g s' g' :
  run_op fuel o s g = Done (s', g') -> high_score s <= high_score s'.
Proof.
  destruct o as [key| |]; cbn [run_op]; intros H.
  - apply bind_Done in H as ([b s1] & g1 & Hin & H).
    injection H as <- <-. cbn [snd].
    apply handle_input_Done in Hin
      as [(-> & _) | [(_ & _ & d & ->) | (_ & Hr)]].
    + lia.
    + cbn. lia.
    + apply reset_game_Done in Hr as (f & _ & ->). cbn. lia.
  - apply update_snake_Done in H.
    destruct H as [Ho | head tl _ Hsn Hc | head tl _ Hsn Hwc Hs Hf
                  | head tl f g' _ Hsn Hwc Hs Hf Hg].
    + lia.
    + rewrite high_score_end_game. lia.
    + cbn. lia.
    + cbn. lia.
  - apply reset_game_Done in H as (f & _ & ->). cbn. lia.
Qed.

Lemma run_ops_high_score fuel os :
  forall s g s' g',
    run_ops fuel os s g = Done (s', g') -> high_score s <= high_score s'.
Proof.
  induction os as [|o os IH]; intros s g s' g' H.
  - injection H as <- <-. lia.
  - cbn [run_ops] in H. apply bind_Done in H as (s1 & g1 & Ho & H).
    apply run_op_high_score in Ho. apply IH in H. lia.
Qed.

(** C7. The high score never goes down: over any sequence of
    [handle_input], [update_snake] and [reset_game] calls it ends at least
    as high as it began.  [reset_game] itself keeps the high score (and the
    bounds) and sets the snake to the three starting cells, the direction to
    [RIGHT], the food to a fresh cell off the snake, the score to 0 and
    [game_over] to false. *)
Theorem high_score_monotone (fuel : nat) (s : SnakeGame) (g : Rng) :
  (forall os s' g',
     run_ops fuel os s g = Done (s', g') -> high_score s <= high_score s')
  /\ (forall s' g',
        reset_game fuel s g = Done (s', g') ->
        high_score s' = high_score s
        /\ game_height s' = game_height s /\ game_width s' = game_width s
        /\ height s' = height s /\ width s' = width s
        /\ snake s' = start_snake s
        /\ direction s' = RIGHT
        /\ food_ok s' (food s')
        /\ score s' = 0
        /\ game_over s' = false).
Proof.
  split.
  - intros os s' g'. apply run_ops_high_score.
  - intros s' g' H. apply reset_game_Done in H as (f & Hf & ->).
    apply generate_food_ok in Hf.
    repeat split; try reflexivity; apply Hf.
Qed.

Lemma high_score_monotone_witness :
  high_score edge_game <= high_score replayed_game
  /\ high_score (reset_with over_game (3, 20)) = high_score over_game
  /\ score (reset_with over_game (3, 20)) = 0
  /\ game_over (reset_with over_game (3, 20)) = false.
Proof.
  split.
  - apply (proj1 (high_score_monotone 1 edge_game demo_rng)
             [OpTick; OpInput ord_r; OpTick] replayed_game (skip 4 demo_rng)).
    reflexivity.
  - pose proof (proj2 (high_score_monotone 1 over_game demo_rng)
                  (reset_with over_game (3, 20)) (skip 2 demo_rng) eq_refl)
      as (Hhs & _ & _ & _ & _ & _ & _ & _ & Hsc & Hov).
    exact (conj Hhs (conj Hsc Hov)).
Defined.

(** ** The delay between moves *)

(** Within one game the delay follows the score: a call of [update_snake]
    keeps [timeout = interval_ms score]. *)
Lemma interval_kept_by_tick fuel s g s' g' :
  timeout s = interval_ms (score s) ->
  update_snake fuel s g = Done (s', g') ->
  timeout s' = interval_ms (score s').
Proof.
  intros Hinv H. apply update_snake_Done in H.
  destruct H as [Ho | head tl _ Hsn Hc | head tl _ Hsn Hwc Hs Hf
                | head tl f g' _ Hsn Hwc Hs Hf Hg].
  - exact Hinv.
  - destruct (end_game_frame s) as (_ & _ & _ & Esc & _ & Et & _).
    rewrite Esc, Et. exact Hinv.
  - exact Hinv.
  - reflexivity.
Qed.

Lemma interval_after_init fuel h w g s g' :
  init fuel h w g = Done (s, g') -> timeout s = interval_ms (score s).
Proof.
  intros H. apply init_Done in H as (f & -> & _). reflexivity.
Qed.

(** [reset_game] puts the score back to 0 and leaves the delay where the
    last game took it. *)
Lemma reset_game_keeps_timeout fuel s g s' g' :
  reset_game fuel s g = Done (s', g') ->
  timeout s' = timeout s /\ score s' = 0.
Proof.
  intros H. apply reset_game_Done in H as (f & _ & ->).
  split; reflexivity.
Qed.

(** C8, on the code: a game that reached score 50 (delay 99), ended on the
    wall and was restarted with R.  After the first move of the new game the
    score is 0, for which the speed rule gives 100, and the delay is still
    99: [reset_game] does not put the delay back. *)
Theorem interval_stale_after_restart :
  exists s g',
    restart_run demo_rng = Done (s, g')
    /\ score s = 0
    /\ high_score s = 50
    /\ timeout s = 99
    /\ interval_ms (score s) = 100.
Proof.
  eexists. eexists. split; [vm_compute; reflexivity|].
  repeat split; reflexivity.
Qed.

(** ** The wall, on the screen's own bounds *)

(** On a well-formed game the last row and column of the screen, and
    everything beyond, are wall: [__init__] keeps the play area four rows
    and two columns short of the screen. *)
Lemma wall_collision_on_screen fuel s g head tl :
  wf s ->
  game_over s = false ->
  snake s = head :: tl ->
  fst (step_from head (direction s)) <= 0
  \/ fst (step_from head (direction s)) >= height s - 1
  \/ snd (step_from head (direction s)) <= 0
  \/ snd (step_from head (direction s)) >= width s - 1 ->
  update_snake fuel s g = Done (end_game s, g).
Proof.
  intros (Hh & Hw & _) Hover Hsn Hout.
  apply (update_snake_collision fuel s g head tl Hover Hsn).
  left. apply wall_collision_iff. lia.
Qed.

(** * More of the program *)

(** ** Keys [handle_input] does not act on *)

Lemma handle_input_pass (fuel : nat) (key : Z) (s : SnakeGame) (g : Rng) :
  (game_over s = false -> ~ In key steering_keys) ->
  (game_over s = true -> restart_key key = false) ->
  handle_input fuel key s g = Done ((negb (quit_key key), s), g).
Proof.
  intros Hplay Hover. unfold handle_input.
  fold (quit_key key). fold (restart_key key).
  destruct (quit_key key); [reflexivity|].
  destruct (game_over s) eqn:Ho.
  - rewrite (Hover eq_refl). reflexivity.
  - destruct (restart_key key); [reflexivity|]. cbn [negb].
    assert (forall c, In c steering_keys -> (key =? c) = false) as Hk.
    { intros c Hc. apply Z.eqb_neq. intros ->. exact (Hplay eq_refl Hc). }
    rewrite !Hk by (unfold steering_keys; cbn; tauto).
    reflexivity.
Qed.

(** X1. A key changes nothing when the game is on and it is no steering
    key (a restart key, an unknown key, no key at all), or when the game is
    over and it is no restart key (a steering key included): the game and
    the random module are as before, and the result is [False] for a quit
    key only. *)
Theorem handle_input_ignored (fuel : nat) (key : Z) (s : SnakeGame) (g : Rng) :
  (game_over s = false -> ~ In key steering_keys) ->
  (game_over s = true -> restart_key key = false) ->
  handle_input fuel key s g = Done ((negb (quit_key key), s), g).
Proof.
  intros Hplay Hover. apply handle_input_pass; assumption.
Qed.

Lemma handle_input_ignored_witness :
  handle_input 0 (-1) demo_game demo_rng = Done ((true, demo_game), demo_rng)
  /\ handle_input 0 ord_r demo_game demo_rng
     = Done ((true, demo_game), demo_rng)
  /\ handle_input 0 KEY_LEFT over_game demo_rng
     = Done ((true, over_game), demo_rng).
Proof.
  split; [|split].
  - apply (handle_input_ignored 0 (-1) demo_game demo_rng).
    + intros _. unfold steering_keys. cbn. intuition discriminate.
    + discriminate.
  - apply (handle_input_ignored 0 ord_r demo_game demo_rng).
    + intros _. unfold steering_keys. cbn. intuition discriminate.
    + discriminate.
  - apply (handle_input_ignored 0 KEY_LEFT over_game demo_rng).
    + discriminate.
    + intros _. reflexivity.
Defined.

(** X2. [handle_input] returns [False] for the keys q and Q and for no
    other: on a quit key it returns at once, whatever the state of the game,
    with the game and the random module untouched; any call that returns
    [False] was given a quit key. *)
Theorem handle_input_quit (fuel : nat) (key : Z) (s : SnakeGame) (g : Rng) :
  (quit_key key = true -> handle_input fuel key s g = Done ((false, s), g))
  /\ (forall b s' g',
        handle_input fuel key s g = Done ((b, s'), g') ->
        b = false -> quit_key key = true).
Proof.
  unfold handle_input. fold (quit_key key). split.
  - intros ->. reflexivity.
  - intros b s' g' H Hb. destruct (quit_key key); [reflexivity|]. exfalso.
    destruct ((key =? ord_r) || (key =? ord_R)).
    { destruct (game_over s).
      - apply bind_Done in H as (s1 & g1 & _ & H).
        unfold ret in H. congruence.
      - unfold ret in H. congruence. }
    destruct (negb (game_over s)); [|unfold ret in H; congruence].
    repeat match type of H with
           | (if ?c then _ else _) _ = _ => destruct c
           end; unfold ret in H; congruence.
Qed.

Lemma handle_input_quit_witness :
  handle_input 0 ord_Q over_game demo_rng = Done ((false, over_game), demo_rng)
  /\ quit_key ord_q = true.
Proof.
  split.
  - apply (proj1 (handle_input_quit 0 ord_Q over_game demo_rng)).
    reflexivity.
  - apply (proj2 (handle_input_quit 0 ord_q demo_game demo_rng)
             false demo_game demo_rng); reflexivity.
Defined.

(** X3. The arrow key, the lower-case letter and the upper-case letter of
    a direction are interchangeable: [handle_input] does the same on any two
    of them, in every state of the game. *)
Theorem steering_keys_alias
    (fuel : nat) (d : Direction) (k1 k2 : Z) (s : SnakeGame) (g : Rng) :
  In k1 (keys_of d) -> In k2 (keys_of d) ->
  handle_input fuel k1 s g = handle_input fuel k2 s g.
Proof.
  intros H1 H2.
  destruct d; cbn [keys_of In] in H1, H2;
    destruct H1 as [<-|[<-|[<-|[]]]]; destruct H2 as [<-|[<-|[<-|[]]]];
    reflexivity.
Qed.

Lemma steering_keys_alias_witness :
  handle_input 0 KEY_UP demo_game demo_rng
  = handle_input 0 ord_W demo_game demo_rng.
Proof.
  apply (steering_keys_alias 0 UP KEY_UP ord_W demo_game demo_rng);
    cbn; tauto.
Defined.

(** ** Running into oneself *)

Lemma step_back (p : Position) (d : Direction) :
  step_from (step_from p d) (opposite d) = p.
Proof.
  destruct p as [y x], d; unfold step_from; cbn [value opposite];
    f_equal; lia.
Qed.

(** X4. With the game on, a new head on any cell of the snake ends the
    game like a wall does, and the last cell counts although the move would
    have freed it: [game_over] is set, [high_score] becomes the larger of
    itself and [score], nothing else changes. *)
Theorem self_collision_ends_game
    (fuel : nat) (s : SnakeGame) (g : Rng) (head : Position)
    (tl : list Position) :
  game_over s = false ->
  snake s = head :: tl ->
  In (step_from head (direction s)) (snake s) ->
  exists s',
    update_snake fuel s g = Done (s', g)
    /\ game_over s' = true
    /\ high_score s' = Z.max (high_score s) (score s)
    /\ snake s' = snake s
    /\ food s' = food s
    /\ score s' = score s
    /\ direction s' = direction s.
Proof.
  intros Hover Hsn Hin. exists (end_game s).
  destruct (end_game_frame s) as (Ho & Hs & Hf & Hsc & Hd & _).
  split; [|repeat split; try assumption; apply high_score_end_game].
  apply (update_snake_collision fuel s g head tl Hover Hsn).
  right. apply pos_in_In, Hin.
Qed.

Lemma self_collision_ends_game_witness :
  last (snake curled_game) (0, 0) = step_from (2, 2) (direction curled_game)
  /\ exists s',
       update_snake 0 curled_game demo_rng = Done (s', demo_rng)
       /\ game_over s' = true
       /\ high_score s' = Z.max (high_score curled_game) (score curled_game)
       /\ snake s' = snake curled_game
       /\ food s' = food curled_game
       /\ score s' = score curled_game
       /\ direction s' = direction curled_game.
Proof.
  split; [reflexivity|].
  apply (self_collision_ends_game 0 curled_game demo_rng (2, 2)
           [(2, 3); (3, 3); (3, 2)]).
  - reflexivity.
  - reflexivity.
  - cbn. tauto.
Defined.

(** X5. The reversal guard of [handle_input] looks at the direction last
    set, not at the direction last moved in: two steering keys before one
    [update_snake], a turn and then the reversal of the direction of travel,
    are both taken, and the move that follows puts the head on the cell
    behind it and ends the game. *)
Theorem double_turn_ends_game
    (fuel : nat) (s : SnakeGame) (g : Rng) (head neck : Position)
    (tl : list Position) (turn : Direction) (k1 k2 : Z) :
  game_over s = false ->
  snake s = head :: neck :: tl ->
  head = step_from neck (direction s) ->
  turn <> direction s ->
  turn <> opposite (direction s) ->
  In k1 (keys_of turn) ->
  In k2 (keys_of (opposite (direction s))) ->
  exists s',
    (r1 <- handle_input fuel k1 s ;;
     r2 <- handle_input fuel k2 (snd r1) ;;
     update_snake fuel (snd r2)) g = Done (s', g)
    /\ game_over s' = true
    /\ direction s' = opposite (direction s)
    /\ snake s' = snake s.
Proof.
  intros Hover Hsn Hhead Ht1 Ht2 Hk1 Hk2.
  set (s1 := set_direction s turn).
  set (s2 := set_direction s1 (opposite (direction s))).
  assert (handle_input fuel k1 s g = Done ((true, s1), g)) as E1.
  { rewrite (handle_input_move fuel k1 turn s g Hover Hk1).
    destruct (Direction_eqb (direction s) (opposite turn)) eqn:E;
      [|reflexivity].
    apply Direction_eqb_eq in E. exfalso. apply Ht2.
    rewrite E. symmetry. apply opposite_involutive. }
  assert (handle_input fuel k2 s1 g = Done ((true, s2), g)) as E2.
  { rewrite (handle_input_move fuel k2 (opposite (direction s)) s1 g Hover Hk2).
    rewrite opposite_involutive. cbn [s1 set_direction direction].
    destruct (Direction_eqb turn (direction s)) eqn:E; [|reflexivity].
    apply Direction_eqb_eq in E. contradiction. }
  exists (end_game s2).
  destruct (end_game_frame s2) as (Ho & Hs & _ & _ & Hd & _).
  split; [|split; [exact Ho | split; [exact Hd | exact Hs]]].
  rewrite (bind_of_Done _ _ _ _ _ E1). cbn [snd].
  rewrite (bind_of_Done _ _ _ _ _ E2). cbn [snd].
  apply (update_snake_collision fuel s2 g head (neck :: tl) Hover Hsn).
  right. cbn [s2 s1 set_direction direction snake].
  rewrite Hsn, Hhead, step_back. cbn [pos_in].
  assert (pos_eqb neck neck = true) as -> by (apply pos_eqb_eq; reflexivity).
  apply orb_true_r.
Qed.

Lemma double_turn_ends_game_witness :
  exists s',
    (r1 <- handle_input 0 KEY_UP demo_game ;;
     r2 <- handle_input 0 KEY_LEFT (snd r1) ;;
     update_snake 0 (snd r2)) demo_rng = Done (s', demo_rng)
    /\ game_over s' = true
    /\ direction s' = opposite (direction demo_game)
    /\ snake s' = snake demo_game.
Proof.
  apply (double_turn_ends_game 0 demo_game demo_rng (3, 19) (3, 18) [(3, 17)]
           UP KEY_UP KEY_LEFT).
  - reflexivity.
  - reflexivity.
  - reflexivity.
  - discriminate.
  - discriminate.
  - cbn. tauto.
  - cbn. tauto.
Defined.

(** ** What every reachable game satisfies *)

Lemma adjacent_step_from (p : Position) (d : Direction) :
  adjacent (step_from p d) p.
Proof.
  destruct p as [y x], d; unfold adjacent, step_from; cbn [value fst snd]; lia.
Qed.

Lemma chain_tail (p : Position) (l : list Position) :
  chain (p :: l) -> chain l.
Proof. destruct l as [|q l]; cbn [chain]; tauto. Qed.

Lemma chain_removelast (l : list Position) : chain l -> chain (removelast l).
Proof.
  induction l as [|p l IH]; [tauto|].
  intros H. destruct l as [|q l]; [exact I|].
  destruct l as [|r l]; [exact I|].
  change (removelast (p :: q :: r :: l))
    with (p :: q :: removelast (r :: l)).
  change (removelast (q :: r :: l)) with (q :: removelast (r :: l)) in IH.
  destruct H as [Hpq H]. split; [exact Hpq | exact (IH H)].
Qed.

Lemma Forall_removelast {A : Type} (P : A -> Prop) (l : list A) :
  Forall P l -> Forall P (removelast l).
Proof.
  intros H. apply Forall_forall. intros x Hx.
  apply In_removelast in Hx. revert x Hx. apply Forall_forall, H.
Qed.

Lemma interval_ms_bounds (sc : Z) : 0 <= sc -> 50 <= interval_ms sc <= 100.
Proof.
  intros H. unfold interval_ms.
  pose proof (Z.div_pos sc 50 H ltac:(lia)). lia.
Qed.

(** The game [reset_game] leaves is sound, given sound bounds, high score
    and delay. *)
Lemma sound_reset_with fuel s g f g' t :
  generate_food fuel (set_direction (set_snake s (start_snake s)) RIGHT) g
  = Done (f, g') ->
  game_height s = height s - 4 ->
  game_width s = width s - 2 ->
  0 <= high_score s ->
  50 <= t <= 100 ->
  sound (set_timeout (reset_with s f) t).
Proof.
  intros Hf Hh Hw Hhs Ht.
  apply generate_food_Done in Hf as (Hin & Hy & Hx).
  cbn [set_direction set_snake snake game_height game_width] in Hin, Hy, Hx.
  constructor; cbn [set_timeout reset_with snake score food game_over
                      high_score timeout height width game_height game_width].
  - apply NoDup_start_snake.
  - unfold start_snake. cbn [chain].
    repeat split; unfold adjacent; cbn [fst snd]; lia.
  - cbn. lia.
  - cbn. lia.
  - apply pos_in_not_In, Hin.
  - split; assumption.
  - intros H6 H8. unfold start_snake, sampled.
    cbn [game_height game_width].
    pose proof (Z.div_mod (game_height s) 2 ltac:(lia)).
    pose proof (Z.mod_pos_bound (game_height s) 2 ltac:(lia)).
    pose proof (Z.div_mod (game_width s) 2 ltac:(lia)).
    pose proof (Z.mod_pos_bound (game_width s) 2 ltac:(lia)).
    repeat (apply Forall_cons;
            [cbn [fst snd set_timeout reset_with game_height game_width]; lia|]).
    apply Forall_nil.
  - discriminate.
  - exact Hhs.
  - exact Ht.
  - split; assumption.
Qed.

Lemma sound_set_direction s d : sound s -> sound (set_direction s d).
Proof. intros []. constructor; assumption. Qed.

Lemma sound_end_game s : sound s -> sound (end_game s).
Proof.
  intros [Hnd Hch Hlen Hsc Hf Hff Hfl Hhi Hhp Ht Hd].
  destruct (end_game_frame s)
    as (Ho & Es & Ef & Esc & _ & Et & Egh & Egw & Eh & Ew).
  pose proof (high_score_end_game s) as Ehs.
  constructor; unfold sampled in *;
    rewrite ?Es, ?Ef, ?Esc, ?Et, ?Egh, ?Egw, ?Eh, ?Ew, ?Ehs;
    try assumption; try lia.
Qed.

Lemma sound_moved s head tl :
  sound s ->
  snake s = head :: tl ->
  wall_collision s (step_from head (direction s)) = false ->
  pos_in (step_from head (direction s)) (snake s) = false ->
  pos_eqb (step_from head (direction s)) (food s) = false ->
  sound (moved s (step_from head (direction s))).
Proof.
  intros [Hnd Hch Hlen Hsc Hf Hff Hfl Hhi Hhp Ht Hd] Hsn Hw Hs Hfd.
  apply pos_in_not_In in Hs. apply pos_eqb_neq in Hfd.
  apply wall_collision_sampled in Hw.
  destruct tl as [|neck tl]; [rewrite Hsn in Hlen; cbn in Hlen; lia|].
  assert (removelast (snake s) = head :: removelast (neck :: tl)) as Erl
    by (rewrite Hsn; reflexivity).
  constructor; unfold moved;
    cbn [set_snake snake score food game_over high_score timeout height
         width game_height game_width]; try assumption.
  - constructor.
    + intros Hin. apply In_removelast in Hin. contradiction.
    + apply NoDup_removelast, Hnd.
  - rewrite Erl. split; [apply adjacent_step_from|].
    rewrite <- Erl. apply chain_removelast, Hch.
  - cbn [length]. rewrite Hsn, length_removelast_cons.
    rewrite Hsn in Hlen. exact Hlen.
  - cbn [length]. rewrite Hsn, length_removelast_cons.
    rewrite Hsc, Hsn. reflexivity.
  - intros [Hin|Hin]; [congruence|].
    apply In_removelast in Hin. contradiction.
  - intros H6 H8. constructor; [exact Hw|].
    apply Forall_removelast, Hfl; assumption.
Qed.

Lemma sound_fed_with fuel s g head tl f g' :
  sound s ->
  game_over s = false ->
  snake s = head :: tl ->
  wall_collision s (step_from head (direction s)) = false ->
  pos_in (step_from head (direction s)) (snake s) = false ->
  generate_food fuel (fed s (step_from head (direction s))) g = Done (f, g') ->
  sound (fed_with s (step_from head (direction s)) f).
Proof.
  intros [Hnd Hch Hlen Hsc Hf Hff Hfl Hhi Hhp Ht Hd] Hover Hsn Hw Hs Hg.
  apply pos_in_not_In in Hs. apply wall_collision_sampled in Hw.
  apply generate_food_Done in Hg as (Hin & Hy & Hx).
  cbn [fed set_score set_snake snake game_height game_width] in Hin, Hy, Hx.
  constructor;
    cbn [fed_with snake score food game_over high_score timeout height
         width game_height game_width]; try assumption.
  - constructor; assumption.
  - rewrite Hsn. split; [apply adjacent_step_from|].
    rewrite <- Hsn. exact Hch.
  - cbn [length]. lia.
  - cbn [length]. lia.
  - apply pos_in_not_In, Hin.
  - split; assumption.
  - intros H6 H8. constructor; [exact Hw | apply Hfl; assumption].
  - congruence.
  - apply (interval_ms_bounds (score s + 10)). lia.
Qed.

Lemma sound_after_tick fuel s g s' g' :
  sound s -> update_snake fuel s g = Done (s', g') -> sound s'.
Proof.
  intros Hs H. apply update_snake_Done in H.
  destruct H as [Ho | head tl _ Hsn Hc | head tl _ Hsn Hwc Hin Hf
                | head tl f g' Hover Hsn Hwc Hin Hf Hg].
  - exact Hs.
  - apply sound_end_game, Hs.
  - eapply sound_moved; eassumption.
  - eapply sound_fed_with; eassumption.
Qed.

Lemma sound_after_input fuel key s g b s' g' :
  sound s -> handle_input fuel key s g = Done ((b, s'), g') -> sound s'.
Proof.
  intros Hs H.
  apply handle_input_Done in H as [(-> & _) | [(_ & _ & d & ->) | (_ & Hr)]].
  - exact Hs.
  - apply sound_set_direction, Hs.
  - apply reset_game_Done in Hr as (f & Hf & ->).
    destruct Hs as [_ _ _ _ _ _ _ _ Hhp Ht [Hh Hw]].
    apply (sound_reset_with fuel s g f g' (timeout s) Hf Hh Hw Hhp Ht).
Qed.

Lemma sound_after_init fuel h w g s g' :
  init fuel h w g = Done (s, g') -> sound s.
Proof.
  unfold init. intros H.
  apply bind_Done in H as (s1 & g1 & Hr & H). injection H as <- <-.
  apply reset_game_Done in Hr as (f & Hf & ->).
  apply (sound_reset_with fuel _ g f g1 100 Hf); cbn; lia.
Qed.

Lemma reachable_sound s g : reachable s g -> sound s.
Proof.
  induction 1 as [fuel h w g s g' Hinit
                 | fuel key s g b s' g' _ IH Hin
                 | fuel s g s' g' _ IH Htick].
  - exact (sound_after_init _ _ _ _ _ _ Hinit).
  - exact (sound_after_input _ _ _ _ _ _ _ IH Hin).
  - exact (sound_after_tick _ _ _ _ _ IH Htick).
Qed.

Lemma turned_game_reachable : reachable turned_game (skip 2 demo_rng).
Proof.
  apply (reach_tick 0 (set_direction demo_game UP) (skip 2 demo_rng)).
  - apply (reach_input 0 KEY_UP demo_game (skip 2 demo_rng) true).
    + apply (reach_init 1 10 40 demo_rng). reflexivity.
    + reflexivity.
  - reflexivity.
Defined.

Lemma crashed_game_reachable : reachable crashed_game (skip 2 demo_rng).
Proof.
  apply (reach_tick 0 (set_game_over crashed_game false) (skip 2 demo_rng)).
  - apply (reach_tick 0 turned_game (skip 2 demo_rng)).
    + exact turned_game_reachable.
    + reflexivity.
  - reflexivity.
Defined.

(** X6. In every reachable game the snake is one connected path of at
    least three cells: each cell is next to the one after it, by one step
    along a row or a column. *)
Theorem snake_is_chain (s : SnakeGame) (g : Rng) :
  reachable s g ->
  chain (snake s) /\ (3 <= length (snake s))%nat.
Proof.
  intros H. apply reachable_sound in H.
  split; [apply (sound_chain s H) | apply (sound_length s H)].
Qed.

Lemma snake_is_chain_witness :
  chain (snake turned_game) /\ (3 <= length (snake turned_game))%nat.
Proof.
  apply (snake_is_chain turned_game (skip 2 demo_rng)).
  exact turned_game_reachable.
Defined.

(** X7. In every reachable game the score counts the cells the snake has
    grown by since the start of the game, ten points each:
    [score = 10 * (len(snake) - 3)]. *)
Theorem score_counts_growth (s : SnakeGame) (g : Rng) :
  reachable s g ->
  score s = 10 * (Z.of_nat (length (snake s)) - 3).
Proof.
  intros H. apply reachable_sound in H. apply (sound_score s H).
Qed.

Lemma score_counts_growth_witness :
  score turned_game = 10 * (Z.of_nat (length (snake turned_game)) - 3).
Proof.
  apply (score_counts_growth turned_game (skip 2 demo_rng)).
  exact turned_game_reachable.
Defined.

(** X8. In every reachable game, at every moment and not only when the
    food has just been placed, the food is off the snake and on the floor
    (rows [1 .. game_height - 1], columns [1 .. game_width - 1]). *)
Theorem food_never_on_snake (s : SnakeGame) (g : Rng) :
  reachable s g ->
  ~ In (food s) (snake s) /\ sampled s (food s).
Proof.
  intros H. apply reachable_sound in H.
  split; [apply (sound_food s H) | apply (sound_food_floor s H)].
Qed.

Lemma food_never_on_snake_witness :
  ~ In (food turned_game) (snake turned_game)
  /\ sampled turned_game (food turned_game).
Proof.
  apply (food_never_on_snake turned_game (skip 2 demo_rng)).
  exact turned_game_reachable.
Defined.

(** X9. On a screen of at least 6 rows and 8 columns every cell of the
    snake of a reachable game is on the floor: no part of the snake is ever
    on or beyond a wall row or column. *)
Theorem snake_on_floor (s : SnakeGame) (g : Rng) :
  reachable s g ->
  6 <= height s -> 8 <= width s ->
  Forall (sampled s) (snake s).
Proof.
  intros H. apply reachable_sound in H. apply (sound_floor s H).
Qed.

Lemma snake_on_floor_witness : Forall (sampled turned_game) (snake turned_game).
Proof.
  apply (snake_on_floor turned_game (skip 2 demo_rng)).
  - exact turned_game_reachable.
  - cbn. lia.
  - cbn. lia.
Defined.

(** X10. The high score is brought up to date when a game ends and not
    before: in every reachable game that is over the high score is at least
    the score (and it is never negative). *)
Theorem high_score_covers_score (s : SnakeGame) (g : Rng) :
  reachable s g ->
  0 <= high_score s /\ (game_over s = true -> score s <= high_score s).
Proof.
  intros H. apply reachable_sound in H.
  split; [apply (sound_high_pos s H) | apply (sound_high s H)].
Qed.

Lemma high_score_covers_score_witness :
  0 <= high_score crashed_game /\ score crashed_game <= high_score crashed_game.
Proof.
  destruct (high_score_covers_score crashed_game (skip 2 demo_rng)
              crashed_game_reachable) as [H0 H1].
  split; [exact H0 | apply H1; reflexivity].
Defined.

(** X11. The delay given to [stdscr.timeout] stays between 50 and 100
    milliseconds in every reachable game. *)
Theorem timeout_in_bounds (s : SnakeGame) (g : Rng) :
  reachable s g ->
  50 <= timeout s <= 100.
Proof.
  intros H. apply reachable_sound in H. apply (sound_timeout s H).
Qed.

Lemma timeout_in_bounds_witness : 50 <= timeout turned_game <= 100.
Proof.
  apply (timeout_in_bounds turned_game (skip 2 demo_rng)).
  exact turned_game_reachable.
Defined.

(** ** Exceptions and loops that do not end *)


Lemma generate_food_no_raise s :
  2 <= game_height s -> 2 <= game_width s ->
  forall fuel g e, generate_food fuel s g <> Raise e.
Proof.
  intros Hh Hw. induction fuel as [|fuel IH]; intros g e; [discriminate|].
  rewrite generate_food_step by assumption.
  destruct (pos_in (candidate s g) (snake s)); [apply IH | discriminate].
Qed.

Lemma update_snake_no_raise fuel s g e :
  snake s <> [] ->
  2 <= game_height s -> 2 <= game_width s ->
  update_snake fuel s g <> Raise e.
Proof.
  intros Hne Hh Hw. unfold update_snake.
  destruct (game_over s); [discriminate|].
  destruct (snake s) as [|head tl] eqn:Hsn; [contradiction|].
  destruct (wall_collision s (step_from head (direction s))); [discriminate|].
  destruct (pos_in (step_from head (direction s)) (head :: tl));
    [discriminate|].
  destruct (pos_eqb _ _); [|discriminate].
  unfold bind.
  match goal with
  | |- context [generate_food fuel ?s' g] =>
      pose proof (generate_food_no_raise s' Hh Hw fuel g) as Hg;
      destruct (generate_food fuel s' g) as [[f g1]| e' |]
  end; [discriminate | exfalso; apply (Hg e'); reflexivity | discriminate].
Qed.

Lemma reset_game_no_raise fuel s g e :
  2 <= game_height s -> 2 <= game_width s ->
  reset_game fuel s g <> Raise e.
Proof.
  intros Hh Hw. unfold reset_game, bind.
  match goal with
  | |- context [generate_food fuel ?s' g] =>
      pose proof (generate_food_no_raise s' Hh Hw fuel g) as Hg;
      destruct (generate_food fuel s' g) as [[f g1]| e' |]
  end; [discriminate | exfalso; apply (Hg e'); reflexivity | discriminate].
Qed.

Lemma handle_input_no_raise fuel key s g e :
  2 <= game_height s -> 2 <= game_width s ->
  handle_input fuel key s g <> Raise e.
Proof.
  intros Hh Hw. unfold handle_input.
  destruct ((key =? ord_q) || (key =? ord_Q)); [discriminate|].
  destruct ((key =? ord_r) || (key =? ord_R)).
  { destruct (game_over s); [|discriminate].
    unfold bind.
    pose proof (reset_game_no_raise fuel s g) as Hr.
    destruct (reset_game fuel s g) as [[s1 g1]| e' |];
      [discriminate | exfalso; apply (Hr e' Hh Hw); reflexivity
      | discriminate]. }
  destruct (negb (game_over s)); [|discriminate].
  repeat match goal with
         | |- (if ?c then _ else _) _ <> _ => destruct c
         end; discriminate.
Qed.



(** X13. Once the game is built no method raises: on every reachable game
    [handle_input] (any key) and [update_snake] end in a result or are still
    in the loop of [generate_food], never in an exception. *)
Theorem reachable_no_exception
    (s : SnakeGame) (g0 : Rng) (fuel : nat) (key : Z) (g : Rng) (e : exn) :
  reachable s g0 ->
  handle_input fuel key s g <> Raise e /\ update_snake fuel s g <> Raise e.
Proof.
  intros H. apply reachable_sound in H.
  pose proof (sound_food_floor s H) as [Hy Hx].
  pose proof (sound_length s H) as Hlen.
  split.
  - apply handle_input_no_raise; lia.
  - apply update_snake_no_raise; try lia.
    intros E. rewrite E in Hlen. cbn in Hlen. lia.
Qed.

Lemma reachable_no_exception_witness :
  handle_input 3 ord_r turned_game demo_rng <> Raise IndexError
  /\ update_snake 3 turned_game demo_rng <> Raise IndexError.
Proof.
  apply (reachable_no_exception turned_game (skip 2 demo_rng) 3 ord_r
           demo_rng IndexError).
  exact turned_game_reachable.
Defined.

Lemma candidate_sampled s g :
  2 <= game_height s -> 2 <= game_width s -> sampled s (candidate s g).
Proof.
  intros Hh Hw. unfold sampled, candidate. cbn [fst snd].
  pose proof (Z.mod_pos_bound (draws g (cursor g)) (game_height s - 1)).
  pose proof (Z.mod_pos_bound (draws g (S (cursor g))) (game_width s - 1)).
  lia.
Qed.

(** X14. When the snake covers every floor cell [generate_food] never
    returns, whatever the random module gives: no amount of fuel ends the
    loop. *)
Theorem generate_food_full_board (s : SnakeGame) (fuel : nat) (g : Rng) :
  2 <= game_height s -> 2 <= game_width s ->
  (forall p, sampled s p -> In p (snake s)) ->
  generate_food fuel s g = OutOfFuel.
Proof.
  intros Hh Hw Hfull. apply generate_food_spins; try assumption.
  intros k. apply pos_in_In, Hfull. unfold attempt.
  apply candidate_sampled; assumption.
Qed.

Lemma generate_food_full_board_witness :
  generate_food 1000 cramped_game demo_rng = OutOfFuel.
Proof.
  apply (generate_food_full_board cramped_game 1000 demo_rng).
  - cbn. lia.
  - cbn. lia.
  - intros [y x] [Hy Hx]. cbn in Hy, Hx.
    assert (y = 1) as -> by lia. assert (x = 1) as -> by lia.
    cbn. tauto.
Defined.

(** ** Restarting and starting *)

(** [generate_food] reads the play area and the snake, nothing else. *)
Lemma generate_food_ext fuel s1 s2 g :
  game_height s1 = game_height s2 ->
  game_width s1 = game_width s2 ->
  snake s1 = snake s2 ->
  generate_food fuel s1 g = generate_food fuel s2 g.
Proof.
  intros Hh Hw Hs. revert g.
  induction fuel as [|fuel IH]; intros g; [reflexivity|].
  cbn [generate_food]. rewrite Hh, Hw, Hs. unfold bind.
  destruct (randint 1 (game_height s2 - 1) g) as [[y g1]| |]; try reflexivity.
  destruct (randint 1 (game_width s2 - 1) g1) as [[x g2]| |]; try reflexivity.
  destruct (negb (pos_in (y, x) (snake s2))); [reflexivity | apply IH].
Qed.

(** X15. A restart gives the game a fresh start would give on the same
    screen with the same random module, but for the high score and the
    delay, which are carried over from the game that ended. *)
Theorem restart_like_init
    (fuel : nat) (s s0 : SnakeGame) (g g' : Rng) :
  game_height s = height s - 4 ->
  game_width s = width s - 2 ->
  init fuel (height s) (width s) g = Done (s0, g') ->
  reset_game fuel s g
  = Done (set_timeout (set_high_score s0 (high_score s)) (timeout s), g').
Proof.
  intros Hh Hw H. unfold init in H.
  apply bind_Done in H as (s1 & g1 & Hr & H). injection H as <- <-.
  apply reset_game_Done in Hr as (f & Hf & ->).
  rewrite (reset_game_of_food fuel s g f g1).
  - unfold reset_with, set_timeout, set_high_score, start_snake. cbn.
    rewrite Hh, Hw. reflexivity.
  - rewrite <- Hf. apply generate_food_ext.
    + cbn. exact Hh.
    + cbn. exact Hw.
    + unfold start_snake. cbn. rewrite Hh, Hw. reflexivity.
Qed.

Lemma restart_like_init_witness :
  reset_game 1 over_game demo_rng
  = Done (set_timeout (set_high_score demo_game (high_score over_game))
                      (timeout over_game), skip 2 demo_rng).
Proof.
  apply (restart_like_init 1 over_game demo_game demo_rng (skip 2 demo_rng));
    reflexivity.
Defined.





(** ** The loop of [run] *)

Lemma run_cons fuel key keys s g :
  run fuel (key :: keys) s g
  = (r <- handle_input fuel key s ;;
     if fst r
     then s' <- update_snake fuel (snd r) ;; run fuel keys s'
     else ret (false, snd r)) g.
Proof. reflexivity. Qed.

(** One frame of a loop that went on: the key was handled, then the snake
    moved. *)
Lemma run_cons_Done fuel key keys s g b s' g' :
  run fuel (key :: keys) s g = Done ((b, s'), g') ->
  exists r g1,
    handle_input fuel key s g = Done (r, g1)
    /\ ((fst r = false /\ b = false /\ s' = snd r /\ g' = g1)
        \/ (fst r = true
            /\ exists s2 g2,
                 update_snake fuel (snd r) g1 = Done (s2, g2)
                 /\ run fuel keys s2 g2 = Done ((b, s'), g'))).
Proof.
  rewrite run_cons. intros H.
  apply bind_Done in H as (r & g1 & Hin & H).
  exists r, g1. split; [exact Hin|].
  destruct (fst r) eqn:Hb.
  - right. split; [reflexivity|].
    apply bind_Done in H as (s2 & g2 & Ht & H). eauto.
  - left. injection H as <- <- <-. auto.
Qed.

Lemma handle_input_not_restart fuel key s g b s' g' :
  restart_key key = false ->
  handle_input fuel key s g = Done ((b, s'), g') ->
  g' = g /\ exists d, s' = set_direction s d.
Proof.
  unfold handle_input. fold (restart_key key). intros -> H.
  assert (forall b0 gg, ret (b0, s) gg = Done (b, s', g') ->
                        g' = gg /\ exists d, s' = set_direction s d) as Hsame.
  { intros b0 gg E. injection E as <- <- <-. split; [reflexivity|].
    exists (direction s). symmetry. apply set_direction_same. }
  assert (forall b0 d gg, ret (b0, set_direction s d) gg = Done (b, s', g') ->
                          g' = gg /\ exists d, s' = set_direction s d) as Hset.
  { intros b0 d gg E. injection E as <- <- <-. eauto. }
  destruct ((key =? ord_q) || (key =? ord_Q)); [eauto|].
  destruct (negb (game_over s)); [|eauto].
  repeat match type of H with
         | (if ?c then _ else _) _ = _ => destruct c
         end; eauto.
Qed.

(** With the game on [handle_input] never sets the reversal of the
    direction the game holds. *)
Lemma handle_input_playing_dir fuel key s g :
  game_over s = false ->
  exists b d,
    handle_input fuel key s g = Done ((b, set_direction s d), g)
    /\ d <> opposite (direction s).
Proof.
  intros Hover.
  destruct (in_dec Z.eq_dec key steering_keys) as [Hin|Hnin].
  - assert (exists d, In key (keys_of d)) as (d & Hd).
    { unfold steering_keys in Hin.
      repeat (apply in_app_or in Hin as [Hin|Hin]; [eauto|]). eauto. }
    rewrite (handle_input_move fuel key d s g Hover Hd).
    destruct (Direction_eqb (direction s) (opposite d)) eqn:E.
    + exists true, (direction s). rewrite set_direction_same.
      split; [reflexivity | destruct (direction s); discriminate].
    + exists true, d. split; [reflexivity|].
      intros ->. rewrite opposite_involutive in E.
      destruct (direction s); discriminate.
  - rewrite (handle_input_pass fuel key s g); [|auto|congruence].
    exists (negb (quit_key key)), (direction s). rewrite set_direction_same.
    split; [reflexivity | destruct (direction s); discriminate].
Qed.

Lemma step_back_only (p : Position) (d d' : Direction) :
  step_from (step_from p d) d' = p -> d' = opposite d.
Proof.
  destruct p as [y x], d, d'; unfold step_from; cbn [value opposite];
    intros [= Hy Hx]; try reflexivity; lia.
Qed.

Lemma trailing_after_tick fuel s g s' g' :
  (2 <= length (snake s))%nat ->
  update_snake fuel s g = Done (s', g') ->
  game_over s = false ->
  game_over s' = false ->
  trailing s'.
Proof.
  intros Hlen H Hover Hover'. apply update_snake_Done in H.
  destruct H as [Ho | head tl _ Hsn Hc | head tl _ Hsn Hwc Hin Hf
                | head tl f g' _ Hsn Hwc Hin Hf Hg].
  - congruence.
  - destruct (end_game_frame s) as (Ho & _). congruence.
  - destruct tl as [|neck tl]; [rewrite Hsn in Hlen; cbn in Hlen; lia|].
    exists (step_from head (direction s)), head, (removelast (neck :: tl)).
    unfold moved. cbn [set_snake snake direction]. rewrite Hsn.
    split; reflexivity.
  - exists (step_from head (direction s)), head, tl.
    cbn [fed_with snake direction]. rewrite Hsn. split; reflexivity.
Qed.

Lemma trailing_reset_with s f : trailing (reset_with s f).
Proof.
  exists (game_height s / 2, game_width s / 2),
         (game_height s / 2, game_width s / 2 - 1),
         [(game_height s / 2, game_width s / 2 - 2)].
  split; [reflexivity|].
  unfold step_from. cbn [reset_with direction value]. f_equal; lia.
Qed.

(** What the loop keeps from frame to frame. *)
Lemma run_keeps fuel keys :
  forall s g s' g',
    sound s ->
    (game_over s = false -> trailing s) ->
    run fuel keys s g = Done ((true, s'), g') ->
    sound s' /\ (game_over s' = false -> trailing s').
Proof.
  induction keys as [|key keys IH]; intros s g s' g' Hs Htr H.
  - injection H as <- <-. auto.
  - apply run_cons_Done in H
      as ([b1 s1] & g1 & Hin & [(_ & Hb & _) | (_ & s2 & g2 & Ht & Hrun)]);
      [discriminate|].
    cbn [snd] in Ht.
    pose proof (sound_after_input _ _ _ _ _ _ _ Hs Hin) as Hs1.
    pose proof (sound_after_tick _ _ _ _ _ Hs1 Ht) as Hs2.
    apply (IH s2 g2 s' g' Hs2); [|exact Hrun].
    intros Hover2.
    destruct (game_over s1) eqn:Hover1.
    + rewrite (update_snake_over fuel s1 g1 Hover1) in Ht.
      injection Ht as <- <-. congruence.
    + apply (trailing_after_tick fuel s1 g1 s2 g2); try assumption.
      pose proof (sound_length s1 Hs1). lia.
Qed.

Lemma trailing_after_init fuel h w g s g' :
  init fuel h w g = Done (s, g') -> trailing s.
Proof.
  unfold init. intros H.
  apply bind_Done in H as (s1 & g1 & Hr & H). injection H as <- <-.
  apply reset_game_Done in Hr as (f & _ & ->).
  destruct (trailing_reset_with (blank_game h w) f)
    as (head & neck & tl & Hsn & Hh).
  exists head, neck, tl. split; assumption.
Qed.

(** X17. In the loop of [run], where each key is followed by a move, the
    reversal guard does its job: whatever key comes next in a game that is
    on, the cell the head will move to is not the cell right behind it. *)
Theorem run_never_turns_back
    (fuel : nat) (h w : Z) (g0 g1 : Rng) (s0 : SnakeGame) (keys : list Z)
    (s : SnakeGame) (g : Rng) (key : Z) :
  init fuel h w g0 = Done (s0, g1) ->
  run fuel keys s0 g1 = Done ((true, s), g) ->
  game_over s = false ->
  exists b s' head neck tl,
    handle_input fuel key s g = Done ((b, s'), g)
    /\ snake s' = head :: neck :: tl
    /\ step_from head (direction s') <> neck.
Proof.
  intros Hinit Hrun Hover.
  destruct (run_keeps fuel keys s0 g1 s g
              (sound_after_init _ _ _ _ _ _ Hinit)
              (fun _ => trailing_after_init _ _ _ _ _ _ Hinit) Hrun)
    as (_ & Htr).
  destruct (Htr Hover) as (head & neck & tl & Hsn & Hhead).
  destruct (handle_input_playing_dir fuel key s g Hover) as (b & d & Hin & Hd).
  exists b, (set_direction s d), head, neck, tl.
  split; [exact Hin | split; [exact Hsn|]].
  cbn [set_direction direction]. rewrite Hhead. intros E.
  apply step_back_only in E. contradiction.
Qed.

Lemma run_never_turns_back_witness :
  exists b s' head neck tl,
    handle_input 1 KEY_DOWN turned_game (skip 2 demo_rng)
    = Done ((b, s'), skip 2 demo_rng)
    /\ snake s' = head :: neck :: tl
    /\ step_from head (direction s') <> neck.
Proof.
  apply (run_never_turns_back 1 10 40 demo_rng (skip 2 demo_rng) demo_game
           [KEY_UP] turned_game (skip 2 demo_rng) KEY_DOWN); reflexivity.
Defined.






(** X20. Until the first restart the delay follows the speed rule: in a
    game built by [__init__] and driven by [run] with no restart key, the
    delay last given to [stdscr.timeout] is [max(50, 100 - score // 50)]
    after every frame. *)
Theorem first_game_interval
    (fuel : nat) (h w : Z) (g0 g1 : Rng) (s0 : SnakeGame) (keys : list Z)
    (b : bool) (s : SnakeGame) (g : Rng) :
  init fuel h w g0 = Done (s0, g1) ->
  Forall (fun k => restart_key k = false) keys ->
  run fuel keys s0 g1 = Done ((b, s), g) ->
  timeout s = interval_ms (score s).
Proof.
  intros Hinit Hkeys. apply interval_after_init in Hinit.
  revert s0 g1 Hinit.
  induction Hkeys as [|k keys Hk _ IH]; intros s0 g1 Hinv H.
  - injection H as <- <- <-. exact Hinv.
  - apply run_cons_Done in H
      as ([b1 s2] & g2 & Hin & [(_ & _ & -> & _) | (_ & s3 & g3 & Ht & Hrun)]);
      cbn [fst snd] in *;
      apply (handle_input_not_restart _ _ _ _ _ _ _ Hk) in Hin
        as (_ & d & ->).
    + exact Hinv.
    + apply (IH s3 g3); [|exact Hrun].
      apply (interval_kept_by_tick fuel (set_direction s0 d) g2 s3 g3);
        [exact Hinv | exact Ht].
Qed.

Lemma first_game_interval_witness :
  timeout fast_game = interval_ms (score fast_game).
Proof.
  apply (first_game_interval 5 10 40 demo_rng (skip 2 demo_rng) demo_game
           [-1; KEY_RIGHT; ord_d; -1; -1] true fast_game (skip 12 demo_rng)).
  - reflexivity.
  - repeat constructor.
  - reflexivity.
Defined.

(** ** What the drawing methods address *)

Lemma in_range (n x : Z) : In x (range n) <-> 0 <= x < n.
Proof.
  unfold range. rewrite in_map_iff. split.
  - intros (k & <- & Hk). apply in_seq in Hk. lia.
  - intros H. exists (Z.to_nat x). split; [lia|]. apply in_seq. lia.
Qed.

Lemma in_attr (has_colors : bool) (c a : call) :
  In c (if has_colors then [a] else []) -> has_colors = true /\ c = a.
Proof.
  destruct has_colors; cbn [In]; [intros [<-|[]]; auto | intros []].
Qed.

Lemma draw_border_addch has_colors s y x ch :
  In (Addch y x ch) (draw_border has_colors s) ->
  ((y = 0 \/ y = game_height s + 1) /\ 0 <= x < width s - 1 /\ ch = "═")
  \/ ((x = 0 \/ x = game_width s + 1) /\ 0 <= y < game_height s + 2
      /\ ch = "║")
  \/ (y = 0 /\ x = 0 /\ ch = "╔")
  \/ (y = 0 /\ x = game_width s + 1 /\ ch = "╗")
  \/ (y = game_height s + 1 /\ x = 0 /\ ch = "╚")
  \/ (y = game_height s + 1 /\ x = game_width s + 1 /\ ch = "╝").
Proof.
  unfold draw_border. rewrite !in_app_iff.
  intros [H|[H|[H|[H|H]]]].
  - apply in_attr in H as (_ & H). discriminate.
  - apply in_flat_map in H as (x0 & Hx0 & H). apply in_range in Hx0.
    left. destruct H as [H|[H|[]]]; injection H as <- <- <-; auto.
  - apply in_flat_map in H as (y0 & Hy0 & H). apply in_range in Hy0.
    right. left. destruct H as [H|[H|[]]]; injection H as <- <- <-; auto.
  - right. right.
    destruct H as [H|[H|[H|[H|[]]]]]; injection H as <- <- <-; tauto.
  - apply in_attr in H as (_ & H). discriminate.
Qed.

Lemma draw_cells_addch i cells y x ch :
  In (Addch y x ch) (draw_cells i cells) ->
  In (y, x) cells /\ (ch = "◉" \/ ch = "●").
Proof.
  revert i. induction cells as [|[y0 x0] cells IH]; intros i; [intros []|].
  cbn [draw_cells In]. intros [H|H].
  - destruct (Nat.eqb i 0); injection H as <- <- <-; auto.
  - destruct (IH _ H). auto.
Qed.

Lemma draw_snake_addch has_colors s y x ch :
  In (Addch y x ch) (draw_snake has_colors s) ->
  In (y, x) (snake s) /\ (ch = "◉" \/ ch = "●").
Proof.
  unfold draw_snake. rewrite !in_app_iff. intros [H|[H|H]].
  - apply in_attr in H as (_ & H). discriminate.
  - exact (draw_cells_addch _ _ _ _ _ H).
  - apply in_attr in H as (_ & H). discriminate.
Qed.

Lemma draw_food_addch has_colors s y x ch :
  In (Addch y x ch) (draw_food has_colors s) -> (y, x) = food s /\ ch = "◆".
Proof.
  unfold draw_food. rewrite !in_app_iff. intros [H|[H|H]].
  - apply in_attr in H as (_ & H). discriminate.
  - destruct (food s) as [fy fx]. destruct H as [H|[]].
    injection H as <- <- <-. auto.
  - apply in_attr in H as (_ & H). discriminate.
Qed.

Lemma draw_score_calls has_colors s c :
  In c (draw_score has_colors s) ->
  c = Attron 3 \/ c = Attroff 3
  \/ exists y x text,
       c = Addstr y x text
       /\ (y = game_height s + 2 \/ y = game_height s + 3).
Proof.
  unfold draw_score. rewrite !in_app_iff. intros [H|[H|[H|[H|H]]]].
  - apply in_attr in H as (_ & H). auto.
  - destruct H as [<-|[]]. right. right. eauto 6.
  - destruct H as [<-|[]]. right. right. eauto 6.
  - destruct (game_over s); destruct H as [<-|[]]; right; right; eauto 6.
  - apply in_attr in H as (_ & H). auto.
Qed.

(** Every cell [draw_game] puts a character on, with the character. *)
Lemma draw_game_addch has_colors s y x ch :
  In (Addch y x ch) (draw_game has_colors s) ->
  In (Addch y x ch) (draw_border has_colors s)
  \/ (In (y, x) (snake s) /\ (ch = "◉" \/ ch = "●"))
  \/ ((y, x) = food s /\ ch = "◆").
Proof.
  unfold draw_game. rewrite !in_app_iff. intros [H|[H|[H|[H|[H|H]]]]].
  - destruct H as [H|[]]. discriminate.
  - auto.
  - right. left. exact (draw_snake_addch _ _ _ _ _ H).
  - right. right. exact (draw_food_addch _ _ _ _ _ H).
  - apply draw_score_calls in H as [H|[H|(y0 & x0 & t & H & _)]];
      discriminate.
  - destruct H as [H|[]]. discriminate.
Qed.

Lemma draw_game_addstr has_colors s y x text :
  In (Addstr y x text) (draw_game has_colors s) ->
  y = game_height s + 2 \/ y = game_height s + 3.
Proof.
  unfold draw_game. rewrite !in_app_iff. intros [H|[H|[H|[H|[H|H]]]]].
  - destruct H as [H|[]]. discriminate.
  - unfold draw_border in H. rewrite !in_app_iff in H.
    destruct H as [H|[H|[H|[H|H]]]].
    + apply in_attr in H as (_ & H). discriminate.
    + apply in_flat_map in H as (x0 & _ & [H|[H|[]]]); discriminate.
    + apply in_flat_map in H as (x0 & _ & [H|[H|[]]]); discriminate.
    + destruct H as [H|[H|[H|[H|[]]]]]; discriminate.
    + apply in_attr in H as (_ & H). discriminate.
  - unfold draw_snake in H. rewrite !in_app_iff in H.
    destruct H as [H|[H|H]].
    + apply in_attr in H as (_ & H). discriminate.
    + exfalso. revert H. generalize 0%nat.
      induction (snake s) as [|[y0 x0] l IH]; intros i; [intros []|].
      cbn [draw_cells In]. intros [H|H]; [|exact (IH _ H)].
      destruct (Nat.eqb i 0); discriminate.
    + apply in_attr in H as (_ & H). discriminate.
  - unfold draw_food in H. rewrite !in_app_iff in H.
    destruct H as [H|[H|H]].
    + apply in_attr in H as (_ & H). discriminate.
    + destruct (food s). destruct H as [H|[]]. discriminate.
    + apply in_attr in H as (_ & H). discriminate.
  - apply draw_score_calls in H as [H|[H|(y0 & x0 & t & H & Hy)]];
      try discriminate.
    injection H as <- <- <-. exact Hy.
  - destruct H as [H|[]]. discriminate.
Qed.

(** X21. On a screen of at least 6 rows and 8 columns, [draw_game] on a
    reachable game addresses rows and columns of the window only: every
    [addch] is at a row of [0 .. height - 1] and a column of
    [0 .. width - 1], and every [addstr] starts on such a row. *)
Theorem draw_game_in_window
    (has_colors : bool) (s : SnakeGame) (g : Rng) :
  reachable s g ->
  6 <= height s -> 8 <= width s ->
  (forall y x ch,
     In (Addch y x ch) (draw_game has_colors s) ->
     0 <= y < height s /\ 0 <= x < width s)
  /\ (forall y x text,
        In (Addstr y x text) (draw_game has_colors s) ->
        0 <= y < height s).
Proof.
  intros Hreach H6 H8. apply reachable_sound in Hreach.
  destruct (sound_dims s Hreach) as [Hh Hw].
  pose proof (sound_floor s Hreach H6 H8) as Hfloor.
  pose proof (sound_food_floor s Hreach) as Hfood.
  rewrite Forall_forall in Hfloor.
  split.
  - intros y x ch H. apply draw_game_addch in H as [H|[(H & _)|(H & _)]].
    + apply draw_border_addch in H. lia.
    + apply Hfloor in H. unfold sampled in H. cbn [fst snd] in H. lia.
    + rewrite <- H in Hfood. unfold sampled in Hfood.
      cbn [fst snd] in Hfood. lia.
  - intros y x text H. apply draw_game_addstr in H. lia.
Qed.

Lemma draw_game_in_window_witness :
  (forall y x ch,
     In (Addch y x ch) (draw_game true turned_game) ->
     0 <= y < height turned_game /\ 0 <= x < width turned_game)
  /\ (forall y x text,
        In (Addstr y x text) (draw_game true turned_game) ->
        0 <= y < height turned_game).
Proof.
  apply (draw_game_in_window true turned_game (skip 2 demo_rng)).
  - exact turned_game_reachable.
  - cbn. lia.
  - cbn. lia.
Defined.

(** ** What the window shows *)

Lemma paint_app (a b : list call) (scr : Screen) :
  paint (a ++ b) scr = paint b (paint a scr).
Proof. apply fold_left_app. Qed.

Lemma put_text_other_row scr y x text p :
  y <> fst p -> put_text scr y x text p = scr p.
Proof.
  intros Hy. revert scr x.
  induction text as [|c rest IH]; intros scr x; [reflexivity|].
  cbn [put_text]. rewrite IH. unfold put.
  destruct (pos_eqb p (y, x)) eqn:E; [|reflexivity].
  apply pos_eqb_eq in E. subst p. cbn [fst] in Hy. contradiction.
Qed.

Lemma exec_misses scr c p : misses c p -> exec scr c p = scr p.
Proof.
  destruct c as [| | | |y x ch|y x text]; cbn [misses exec];
    try reflexivity.
  - intros [].
  - intros Hne. unfold put.
    destruct (pos_eqb p (y, x)) eqn:E; [|reflexivity].
    apply pos_eqb_eq in E. congruence.
  - apply put_text_other_row.
Qed.

Lemma paint_misses calls scr p :
  (forall c, In c calls -> misses c p) -> paint calls scr p = scr p.
Proof.
  revert scr. induction calls as [|c calls IH]; intros scr H; [reflexivity|].
  change (paint (c :: calls) scr) with (paint calls (exec scr c)).
  rewrite IH by (intros c' Hc'; apply H; right; exact Hc').
  apply exec_misses, H. left. reflexivity.
Qed.

(** When all the calls that reach a cell put the same character there, and
    one does, the cell shows that character. *)
Lemma paint_same calls scr p ch :
  (forall c, In c calls -> misses c p \/ c = Addch (fst p) (snd p) ch) ->
  scr p = Some ch \/ In (Addch (fst p) (snd p) ch) calls ->
  paint calls scr p = Some ch.
Proof.
  revert scr. induction calls as [|c calls IH]; intros scr Hall Hsome.
  - destruct Hsome as [H|[]]. exact H.
  - change (paint (c :: calls) scr) with (paint calls (exec scr c)).
    apply IH; [intros c' Hc'; apply Hall; right; exact Hc'|].
    destruct (Hall c (or_introl eq_refl)) as [Hm| ->].
    + rewrite (exec_misses scr c p Hm).
      destruct Hsome as [H|[H|H]]; auto.
      subst c. cbn [misses] in Hm. destruct p. cbn [fst snd] in Hm.
      congruence.
    + left. cbn [exec]. unfold put.
      assert (pos_eqb p (fst p, snd p) = true) as ->
        by (apply pos_eqb_eq; destruct p; reflexivity).
      reflexivity.
Qed.

Lemma draw_cells_body i cells y x ch :
  (1 <= i)%nat ->
  In (Addch y x ch) (draw_cells i cells) -> In (y, x) cells /\ ch = "●".
Proof.
  revert i. induction cells as [|[y0 x0] cells IH]; intros i Hi; [intros []|].
  cbn [draw_cells In]. intros [H|H].
  - destruct i as [|i]; [lia|]. cbn [Nat.eqb] in H.
    injection H as <- <- <-. auto.
  - destruct (IH (S i) ltac:(lia) H). auto.
Qed.

Lemma draw_cells_has i cells y x :
  In (y, x) cells ->
  exists ch, In (Addch y x ch) (draw_cells i cells).
Proof.
  revert i. induction cells as [|[y0 x0] cells IH]; intros i; [intros []|].
  intros [H|H].
  - injection H as -> ->. cbn [draw_cells].
    destruct (Nat.eqb i 0); eexists; left; reflexivity.
  - destruct (IH (S i) H) as (ch & Hch). exists ch. right. exact Hch.
Qed.

(** The calls of [draw_game] after [clear]. *)
Lemma draw_game_after_clear has_colors s scr :
  paint (draw_game has_colors s) scr
  = paint (draw_border has_colors s ++ draw_snake has_colors s
           ++ draw_food has_colors s ++ draw_score has_colors s ++ [Refresh])
          blank.
Proof. reflexivity. Qed.

Lemma in_after_clear has_colors s c :
  In c (draw_border has_colors s ++ draw_snake has_colors s
        ++ draw_food has_colors s ++ draw_score has_colors s ++ [Refresh]) ->
  In c (draw_game has_colors s) /\ c <> Clear.
Proof.
  intros H. split; [right; exact H|].
  intros ->. rewrite !in_app_iff in H.
  destruct H as [H|[H|[H|[H|H]]]].
  - unfold draw_border in H. rewrite !in_app_iff in H.
    destruct H as [H|[H|[H|[H|H]]]].
    + apply in_attr in H as (_ & H). discriminate.
    + apply in_flat_map in H as (x0 & _ & [H|[H|[]]]); discriminate.
    + apply in_flat_map in H as (x0 & _ & [H|[H|[]]]); discriminate.
    + destruct H as [H|[H|[H|[H|[]]]]]; discriminate.
    + apply in_attr in H as (_ & H). discriminate.
  - unfold draw_snake in H. rewrite !in_app_iff in H.
    destruct H as [H|[H|H]].
    + apply in_attr in H as (_ & H). discriminate.
    + revert H. generalize 0%nat.
      induction (snake s) as [|[y0 x0] l IH]; intros i; [intros []|].
      cbn [draw_cells In]. intros [H|H]; [|exact (IH _ H)].
      destruct (Nat.eqb i 0); discriminate.
    + apply in_attr in H as (_ & H). discriminate.
  - unfold draw_food in H. rewrite !in_app_iff in H.
    destruct H as [H|[H|H]].
    + apply in_attr in H as (_ & H). discriminate.
    + destruct (food s). destruct H as [H|[]]. discriminate.
    + apply in_attr in H as (_ & H). discriminate.
  - apply draw_score_calls in H as [H|[H|(y0 & x0 & t & H & _)]];
      discriminate.
  - destruct H as [H|[]]. discriminate.
Qed.

(** On a floor cell of a sound game, a call of [draw_game] after [clear]
    either leaves the cell alone or is the [addch] of [draw_snake] or
    [draw_food] for that very cell. *)
Lemma floor_cell_calls has_colors s p c :
  sound s -> 6 <= height s -> 8 <= width s ->
  1 <= fst p <= game_height s -> 1 <= snd p <= game_width s ->
  In c (draw_border has_colors s ++ draw_snake has_colors s
        ++ draw_food has_colors s ++ draw_score has_colors s ++ [Refresh]) ->
  misses c p
  \/ (exists ch, c = Addch (fst p) (snd p) ch
                 /\ In c (draw_snake has_colors s) /\ In p (snake s))
  \/ (c = Addch (fst p) (snd p) "◆" /\ p = food s).
Proof.
  intros Hs H6 H8 Hy Hx Hc.
  pose proof Hc as Hc0.
  apply in_after_clear in Hc as (Hc & Hclear).
  destruct c as [| | | |y x ch|y x text]; cbn [misses]; auto;
    try (exfalso; apply Hclear; reflexivity).
  - rewrite !in_app_iff in Hc0. destruct Hc0 as [H|[H|[H|[H|H]]]].
    + left. apply draw_border_addch in H. intros E. subst p.
      cbn [fst snd] in Hy, Hx. lia.
    + destruct (draw_snake_addch _ _ _ _ _ H) as (Hin & _).
      destruct (pos_eqb (y, x) p) eqn:E.
      * apply pos_eqb_eq in E. subst p. right. left. exists ch. auto.
      * apply pos_eqb_neq in E. auto.
    + destruct (draw_food_addch _ _ _ _ _ H) as (Hf & ->).
      destruct (pos_eqb (y, x) p) eqn:E.
      * apply pos_eqb_eq in E. subst p. right. right. auto.
      * apply pos_eqb_neq in E. auto.
    + apply draw_score_calls in H as [H|[H|(y0 & x0 & t & H & _)]];
        discriminate.
    + destruct H as [H|[]]. discriminate.
  - left. apply draw_game_addstr in Hc. lia.
Qed.

Lemma draw_snake_precise has_colors s head tl y x ch :
  snake s = head :: tl ->
  In (Addch y x ch) (draw_snake has_colors s) ->
  ((y, x) = head /\ ch = "◉") \/ (In (y, x) tl /\ ch = "●").
Proof.
  intros Hsn. unfold draw_snake. rewrite Hsn, !in_app_iff.
  intros [H|[H|H]].
  - apply in_attr in H as (_ & H). discriminate.
  - destruct head as [hy hx]. cbn [draw_cells Nat.eqb In] in H.
    destruct H as [H|H].
    + injection H as <- <- <-. auto.
    + right. apply (draw_cells_body 1 tl y x ch); [lia | exact H].
  - apply in_attr in H as (_ & H). discriminate.
Qed.

Lemma draw_snake_has_head has_colors s hy hx tl :
  snake s = (hy, hx) :: tl ->
  In (Addch hy hx "◉") (draw_snake has_colors s).
Proof.
  intros Hsn. unfold draw_snake. rewrite Hsn, !in_app_iff.
  right. left. left. reflexivity.
Qed.

Lemma draw_snake_has_body has_colors s head tl y x :
  snake s = head :: tl ->
  In (y, x) tl ->
  In (Addch y x "●") (draw_snake has_colors s).
Proof.
  intros Hsn Hin. unfold draw_snake. rewrite Hsn, !in_app_iff.
  right. left. destruct head as [hy hx]. cbn [draw_cells]. right.
  destruct (draw_cells_has 1 tl y x Hin) as (ch & Hch).
  destruct (draw_cells_body 1 tl y x ch ltac:(lia) Hch) as (_ & ->).
  exact Hch.
Qed.

Lemma draw_food_has has_colors s :
  In (Addch (fst (food s)) (snd (food s)) "◆") (draw_food has_colors s).
Proof.
  unfold draw_food. rewrite !in_app_iff. right. left.
  destruct (food s). left. reflexivity.
Qed.

(** X22. What a frame shows of the game.  On a screen of at least 6 rows
    and 8 columns, after [draw_game] on a reachable game the head's cell
    shows the head character, every other cell of the snake the body
    character, the food's cell the food character, and every other floor
    cell nothing, whatever was on the window before. *)
Theorem frame_shows_game
    (has_colors : bool) (s : SnakeGame) (g : Rng) (scr : Screen)
    (head : Position) (tl : list Position) :
  reachable s g ->
  6 <= height s -> 8 <= width s ->
  snake s = head :: tl ->
  paint (draw_game has_colors s) scr head = Some "◉"
  /\ (forall p, In p tl -> paint (draw_game has_colors s) scr p = Some "●")
  /\ paint (draw_game has_colors s) scr (food s) = Some "◆"
  /\ (forall p,
        sampled s p -> ~ In p (snake s) -> p <> food s ->
        paint (draw_game has_colors s) scr p = None).
Proof.
  intros Hreach H6 H8 Hsn. apply reachable_sound in Hreach.
  pose proof (sound_floor s Hreach H6 H8) as Hfloor.
  rewrite Forall_forall in Hfloor.
  pose proof (sound_food s Hreach) as Hfood.
  pose proof (sound_food_floor s Hreach) as [Hfy Hfx].
  pose proof (sound_nodup s Hreach) as Hnd. rewrite Hsn in Hnd.
  apply NoDup_cons_iff in Hnd as [Hhead _].
  assert (forall p, sampled s p ->
            1 <= fst p <= game_height s /\ 1 <= snd p <= game_width s)
    as Hin by (unfold sampled; intros p Hp; lia).
  rewrite draw_game_after_clear.
  split; [|split; [|split]].
  - destruct (Hin head (Hfloor head ltac:(rewrite Hsn; left; reflexivity)))
      as [Hy Hx].
    apply paint_same.
    + intros c Hc.
      destruct (floor_cell_calls has_colors s head c Hreach H6 H8 Hy Hx Hc)
        as [Hm | [(ch & -> & Hds & _) | (_ & Hf)]].
      * left. exact Hm.
      * right.
        destruct (draw_snake_precise _ _ _ _ _ _ _ Hsn Hds)
          as [(_ & ->) | (Htl & _)]; [reflexivity|].
        destruct head. contradiction.
      * exfalso. apply Hfood. rewrite <- Hf, Hsn. left. reflexivity.
    + right. rewrite !in_app_iff. right. left.
      destruct head as [hy hx]. apply (draw_snake_has_head _ _ _ _ _ Hsn).
  - intros p Hp.
    assert (In p (snake s)) as Hps by (rewrite Hsn; right; exact Hp).
    destruct (Hin p (Hfloor p Hps)) as [Hy Hx].
    apply paint_same.
    + intros c Hc.
      destruct (floor_cell_calls has_colors s p c Hreach H6 H8 Hy Hx Hc)
        as [Hm | [(ch & -> & Hds & _) | (_ & Hf)]].
      * left. exact Hm.
      * right.
        destruct (draw_snake_precise _ _ _ _ _ _ _ Hsn Hds)
          as [(Hh & _) | (_ & ->)]; [|reflexivity].
        destruct p. cbn [fst snd] in Hh. congruence.
      * exfalso. apply Hfood. rewrite <- Hf. exact Hps.
    + right. rewrite !in_app_iff. right. left.
      destruct p as [y x]. apply (draw_snake_has_body _ _ _ _ _ _ Hsn Hp).
  - apply paint_same.
    + intros c Hc.
      destruct (floor_cell_calls has_colors s (food s) c Hreach H6 H8
                  ltac:(lia) ltac:(lia) Hc)
        as [Hm | [(ch & _ & _ & Hps) | (-> & _)]]; auto.
      contradiction.
    + right. rewrite !in_app_iff. right. right. left. apply draw_food_has.
  - intros p Hp Hnin Hnf. destruct (Hin p Hp) as [Hy Hx].
    rewrite paint_misses; [reflexivity|].
    intros c Hc.
    destruct (floor_cell_calls has_colors s p c Hreach H6 H8 Hy Hx Hc)
      as [Hm | [(ch & _ & _ & Hps) | (_ & Hf)]];
      [exact Hm | contradiction | contradiction].
Qed.

Lemma frame_shows_game_witness :
  paint (draw_game true turned_game) blank (2, 19) = Some "◉"
  /\ (forall p, In p [(3, 19); (3, 18)] ->
        paint (draw_game true turned_game) blank p = Some "●")
  /\ paint (draw_game true turned_game) blank (food turned_game) = Some "◆"
  /\ (forall p,
        sampled turned_game p -> ~ In p (snake turned_game) ->
        p <> food turned_game ->
        paint (draw_game true turned_game) blank p = None).
Proof.
  apply (frame_shows_game true turned_game (skip 2 demo_rng) blank (2, 19)
           [(3, 19); (3, 18)]).
  - exact turned_game_reachable.
  - cbn. lia.
  - cbn. lia.
  - reflexivity.
Defined.

(** X23. The wall is one row and one column wider than the border drawn
    around it.  On a screen of at least 6 rows and 8 columns, the cells of
    row [game_height] and of column [game_width] lie inside the border and a
    frame of a reachable game shows nothing on them, yet the wall test of
    [update_snake] counts them as wall; the cells of row 1 and column 1,
    next to the border on the other two sides, are floor. *)
Theorem blank_wall_cells
    (has_colors : bool) (s : SnakeGame) (g : Rng) (scr : Screen)
    (p : Position) :
  reachable s g ->
  6 <= height s -> 8 <= width s ->
  1 <= fst p <= game_height s ->
  1 <= snd p <= game_width s ->
  fst p = game_height s \/ snd p = game_width s ->
  paint (draw_game has_colors s) scr p = None
  /\ wall_collision s p = true
  /\ wall_collision s (1, 1) = false.
Proof.
  intros Hreach H6 H8 Hy Hx Hedge. apply reachable_sound in Hreach.
  pose proof (sound_floor s Hreach H6 H8) as Hfloor.
  rewrite Forall_forall in Hfloor.
  pose proof (sound_food_floor s Hreach) as [Hfy Hfx].
  destruct (sound_dims s Hreach) as [Hh Hw].
  split; [|split].
  - rewrite draw_game_after_clear, paint_misses; [reflexivity|].
    intros c Hc.
    destruct (floor_cell_calls has_colors s p c Hreach H6 H8 Hy Hx Hc)
      as [Hm | [(ch & _ & _ & Hps) | (_ & Hf)]]; [exact Hm | | ].
    + apply Hfloor in Hps. unfold sampled in Hps. lia.
    + subst p. lia.
  - apply wall_collision_iff. lia.
  - apply wall_collision_sampled. unfold sampled. cbn [fst snd]. lia.
Qed.

Lemma blank_wall_cells_witness :
  paint (draw_game true turned_game) blank (6, 20) = None
  /\ wall_collision turned_game (6, 20) = true
  /\ wall_collision turned_game (1, 1) = false.
Proof.
  apply (blank_wall_cells true turned_game (skip 2 demo_rng) blank (6, 20)).
  - exact turned_game_reachable.
  - cbn. lia.
  - cbn. lia.
  - cbn. lia.
  - cbn. lia.
  - left. reflexivity.
Defined.

(** ** The border *)

Lemma draw_border_misc has_colors s c :
  In c (draw_border has_colors s) ->
  c = Attron 4 \/ c = Attroff 4 \/ exists y x ch, c = Addch y x ch.
Proof.
  unfold draw_border. rewrite !in_app_iff. intros [H|[H|[H|[H|H]]]].
  - apply in_attr in H as (_ & H). auto.
  - apply in_flat_map in H as (x0 & _ & [H|[H|[]]]); subst c; eauto 6.
  - apply in_flat_map in H as (x0 & _ & [H|[H|[]]]); subst c; eauto 6.
  - destruct H as [H|[H|[H|[H|[]]]]]; subst c; eauto 6.
  - apply in_attr in H as (_ & H). auto.
Qed.

(** The sides of the border, between the corners. *)
Lemma border_sides has_colors s scr :
  width s = game_width s + 2 ->
  0 <= game_height s -> 0 <= game_width s ->
  (forall x, 1 <= x <= game_width s ->
     paint (draw_border has_colors s) scr (0, x) = Some "═"
     /\ paint (draw_border has_colors s) scr (game_height s + 1, x)
        = Some "═")
  /\ (forall y, 1 <= y <= game_height s ->
        paint (draw_border has_colors s) scr (y, 0) = Some "║"
        /\ paint (draw_border has_colors s) scr (y, game_width s + 1)
           = Some "║").
Proof.
  intros Hw Hgh Hgw.
  assert (forall p ch,
            (forall y x ch', In (Addch y x ch') (draw_border has_colors s) ->
                             (y, x) = p -> ch' = ch) ->
            In (Addch (fst p) (snd p) ch) (draw_border has_colors s) ->
            paint (draw_border has_colors s) scr p = Some ch) as Hside.
  { intros p ch Hall Hone. apply paint_same; [|right; exact Hone].
    intros c Hc.
    destruct (draw_border_misc _ _ _ Hc) as [-> | [-> | (y & x & ch' & ->)]];
      [left; exact I | left; exact I |].
    destruct (pos_eqb (y, x) p) eqn:E.
    - apply pos_eqb_eq in E. right.
      rewrite (Hall y x ch' Hc E). subst p. reflexivity.
    - apply pos_eqb_neq in E. left. exact E. }
  assert (forall y x ch, In (Addch y x ch) (draw_border has_colors s) <->
            In (Addch y x ch)
               (flat_map (fun x => [Addch 0 x "═";
                                    Addch (game_height s + 1) x "═"])
                         (range (width s - 1))
                ++ flat_map (fun y => [Addch y 0 "║";
                                       Addch y (game_width s + 1) "║"])
                            (range (game_height s + 2))
                ++ [Addch 0 0 "╔";
                    Addch 0 (game_width s + 1) "╗";
                    Addch (game_height s + 1) 0 "╚";
                    Addch (game_height s + 1) (game_width s + 1) "╝"]))
    as Hmem.
  { intros y x ch. unfold draw_border. rewrite !in_app_iff.
    split; [intros [H|[H|[H|[H|H]]]] | intros [H|[H|H]]]; auto.
    - apply in_attr in H as (_ & H). discriminate.
    - apply in_attr in H as (_ & H). discriminate. }
  split.
  - intros x Hx. split; apply Hside.
    + intros y0 x0 ch' Hc [= -> ->]. apply draw_border_addch in Hc.
      destruct Hc as [Hc|[Hc|[Hc|[Hc|[Hc|Hc]]]]];
        destruct Hc as (H1 & H2 & ->); first [reflexivity | exfalso; lia].
    + apply Hmem. rewrite in_app_iff. left. apply in_flat_map.
      exists x. split; [apply in_range; lia | left; reflexivity].
    + intros y0 x0 ch' Hc [= -> ->]. apply draw_border_addch in Hc.
      destruct Hc as [Hc|[Hc|[Hc|[Hc|[Hc|Hc]]]]];
        destruct Hc as (H1 & H2 & ->); first [reflexivity | exfalso; lia].
    + apply Hmem. rewrite in_app_iff. left. apply in_flat_map.
      exists x. split; [apply in_range; lia | right; left; reflexivity].
  - intros y Hy. split; apply Hside.
    + intros y0 x0 ch' Hc [= -> ->]. apply draw_border_addch in Hc.
      destruct Hc as [Hc|[Hc|[Hc|[Hc|[Hc|Hc]]]]];
        destruct Hc as (H1 & H2 & ->); first [reflexivity | exfalso; lia].
    + apply Hmem. rewrite !in_app_iff. right. left. apply in_flat_map.
      exists y. split; [apply in_range; lia | left; reflexivity].
    + intros y0 x0 ch' Hc [= -> ->]. apply draw_border_addch in Hc.
      destruct Hc as [Hc|[Hc|[Hc|[Hc|[Hc|Hc]]]]];
        destruct Hc as (H1 & H2 & ->); first [reflexivity | exfalso; lia].
    + apply Hmem. rewrite !in_app_iff. right. left. apply in_flat_map.
      exists y. split; [apply in_range; lia | right; left; reflexivity].
Qed.

Lemma border_corners has_colors s scr :
  0 <= game_height s -> 0 <= game_width s ->
  paint (draw_border has_colors s) scr (0, 0) = Some "╔"
  /\ paint (draw_border has_colors s) scr (0, game_width s + 1) = Some "╗"
  /\ paint (draw_border has_colors s) scr (game_height s + 1, 0) = Some "╚"
  /\ paint (draw_border has_colors s) scr
           (game_height s + 1, game_width s + 1) = Some "╝".
Proof.
  intros Hgh Hgw. unfold draw_border. rewrite !paint_app.
  match goal with
  | |- context [paint (flat_map ?f ?l) ?scr0] =>
      match scr0 with
      | context [flat_map] => set (scr' := paint (flat_map f l) scr0)
      end
  end.
  assert (forall scr0 : Screen,
            paint (if has_colors then [Attroff 4] else []) scr0 = scr0) as Ha
    by (intros scr0; destruct has_colors; reflexivity).
  rewrite Ha. unfold paint at 1 2 3 4. cbn [fold_left exec].
  repeat split; decide_cells.
Qed.

(** The calls of [draw_game] after [draw_border] leave alone every cell
    that is off the floor and above the two text rows. *)
Lemma after_border_misses has_colors s p c :
  sound s -> 6 <= height s -> 8 <= width s ->
  ~ sampled s p ->
  fst p <= game_height s + 1 ->
  In c (draw_snake has_colors s ++ draw_food has_colors s
        ++ draw_score has_colors s ++ [Refresh]) ->
  misses c p.
Proof.
  intros Hs H6 H8 Hnf Hrow Hc.
  pose proof (sound_floor s Hs H6 H8) as Hfloor.
  rewrite Forall_forall in Hfloor.
  assert (In c (draw_border has_colors s ++ draw_snake has_colors s
                ++ draw_food has_colors s ++ draw_score has_colors s
                ++ [Refresh])) as Hc' by (apply in_or_app; right; exact Hc).
  apply in_after_clear in Hc' as (Hg & Hclear).
  destruct c as [| | | |y x ch|y x text]; cbn [misses]; auto.
  - rewrite !in_app_iff in Hc. destruct Hc as [H|[H|[H|H]]].
    + apply draw_snake_addch in H as (H & _). apply Hfloor in H.
      intros E. subst p. contradiction.
    + apply draw_food_addch in H as (H & _). intros E. subst p.
      rewrite H in Hnf. apply Hnf, (sound_food_floor s Hs).
    + apply draw_score_calls in H as [H|[H|(y0 & x0 & t & H & _)]];
        discriminate.
    + destruct H as [H|[]]. discriminate.
  - apply draw_game_addstr in Hg. lia.
Qed.

(** X24. On a screen of at least 6 rows and 8 columns a frame of a
    reachable game shows the whole border: the four corner characters at
    [(0,0)], [(0, game_width+1)], [(game_height+1, 0)] and
    [(game_height+1, game_width+1)], the horizontal bar on rows [0] and
    [game_height+1] between them and the vertical bar on columns [0] and
    [game_width+1] between them; the snake, the food and the two text rows
    never overwrite it. *)
Theorem frame_shows_border
    (has_colors : bool) (s : SnakeGame) (g : Rng) (scr : Screen) :
  reachable s g ->
  6 <= height s -> 8 <= width s ->
  (paint (draw_game has_colors s) scr (0, 0) = Some "╔"
   /\ paint (draw_game has_colors s) scr (0, game_width s + 1) = Some "╗"
   /\ paint (draw_game has_colors s) scr (game_height s + 1, 0) = Some "╚"
   /\ paint (draw_game has_colors s) scr
            (game_height s + 1, game_width s + 1) = Some "╝")
  /\ (forall x, 1 <= x <= game_width s ->
        paint (draw_game has_colors s) scr (0, x) = Some "═"
        /\ paint (draw_game has_colors s) scr (game_height s + 1, x)
           = Some "═")
  /\ (forall y, 1 <= y <= game_height s ->
        paint (draw_game has_colors s) scr (y, 0) = Some "║"
        /\ paint (draw_game has_colors s) scr (y, game_width s + 1)
           = Some "║").
Proof.
  intros Hreach H6 H8. apply reachable_sound in Hreach.
  destruct (sound_dims s Hreach) as [Hh Hw].
  assert (forall p, ~ sampled s p -> fst p <= game_height s + 1 ->
            paint (draw_game has_colors s) scr p
            = paint (draw_border has_colors s) blank p) as Hkeep.
  { intros p Hnf Hrow. rewrite draw_game_after_clear, paint_app.
    apply paint_misses. intros c Hc.
    exact (after_border_misses has_colors s p c Hreach H6 H8 Hnf Hrow Hc). }
  destruct (border_corners has_colors s blank ltac:(lia) ltac:(lia))
    as (C1 & C2 & C3 & C4).
  destruct (border_sides has_colors s blank ltac:(lia) ltac:(lia) ltac:(lia))
    as (Hrows & Hcols).
  split; [|split].
  - rewrite !Hkeep; [auto | | | | | | | |];
      unfold sampled; cbn [fst snd]; lia.
  - intros x Hx. destruct (Hrows x Hx) as [R1 R2].
    rewrite !Hkeep; [auto | | | |]; unfold sampled; cbn [fst snd]; lia.
  - intros y Hy. destruct (Hcols y Hy) as [R1 R2].
    rewrite !Hkeep; [auto | | | |]; unfold sampled; cbn [fst snd]; lia.
Qed.

Lemma frame_shows_border_witness :
  (paint (draw_game true turned_game) blank (0, 0) = Some "╔"
   /\ paint (draw_game true turned_game) blank (0, game_width turned_game + 1)
      = Some "╗"
   /\ paint (draw_game true turned_game) blank (game_height turned_game + 1, 0)
      = Some "╚"
   /\ paint (draw_game true turned_game) blank
            (game_height turned_game + 1, game_width turned_game + 1)
      = Some "╝")
  /\ (forall x, 1 <= x <= game_width turned_game ->
        paint (draw_game true turned_game) blank (0, x) = Some "═"
        /\ paint (draw_game true turned_game) blank
                 (game_height turned_game + 1, x) = Some "═")
  /\ (forall y, 1 <= y <= game_height turned_game ->
        paint (draw_game true turned_game) blank (y, 0) = Some "║"
        /\ paint (draw_game true turned_game) blank
                 (y, game_width turned_game + 1) = Some "║").
Proof.
  apply (frame_shows_border true turned_game (skip 2 demo_rng) blank).
  - exact turned_game_reachable.
  - cbn. lia.
  - cbn. lia.
Defined.

(** ** The status line *)

Lemma len_instructions : len instructions = 41.
Proof. reflexivity. Qed.

Lemma len_game_over_text : len game_over_text = 44.
Proof. reflexivity. Qed.

(** X25. Where [draw_score] puts the last line.  With the game on, the
    instructions start at a column that is never negative and they fit the
    row exactly when the screen has at least 41 columns.  With the game
    over, the message starts at [(width - 44) // 2], which is negative on
    every screen of fewer than 44 columns and leaves room for the message
    otherwise.  The size check of [main] lets 40 columns through. *)
Theorem status_line_columns (has_colors : bool) (s : SnakeGame) :
  (game_over s = false ->
   exists x,
     In (Addstr (game_height s + 3) x instructions) (draw_score has_colors s)
     /\ 0 <= x
     /\ (x + len instructions <= width s <-> 41 <= width s))
  /\ (game_over s = true ->
      exists x,
        In (Addstr (game_height s + 3) x game_over_text)
           (draw_score has_colors s)
        /\ (x < 0 <-> width s < 44)
        /\ (0 <= x -> x + len game_over_text <= width s))
  /\ terminal_too_small 40 10 = false.
Proof.
  split; [|split; [|reflexivity]].
  - intros Hover. exists (Z.max 0 ((width s - len instructions) / 2)).
    split.
    + unfold draw_score. rewrite Hover, !in_app_iff.
      right. right. right. left. left. reflexivity.
    + rewrite len_instructions.
      pose proof (Z.div_mod (width s - 41) 2 ltac:(lia)).
      pose proof (Z.mod_pos_bound (width s - 41) 2 ltac:(lia)).
      lia.
  - intros Hover. exists ((width s - len game_over_text) / 2).
    split.
    + unfold draw_score. rewrite Hover, !in_app_iff.
      right. right. right. left. left. reflexivity.
    + rewrite len_game_over_text.
      pose proof (Z.div_mod (width s - 44) 2 ltac:(lia)).
      pose proof (Z.mod_pos_bound (width s - 44) 2 ltac:(lia)).
      lia.
Qed.

Lemma status_line_columns_witness :
  (exists x,
     In (Addstr (game_height demo_game + 3) x instructions)
        (draw_score true demo_game)
     /\ 0 <= x
     /\ (x + len instructions <= width demo_game <-> 41 <= width demo_game))
  /\ (exists x,
        In (Addstr (game_height narrow_over_game + 3) x game_over_text)
           (draw_score true narrow_over_game)
        /\ (x < 0 <-> width narrow_over_game < 44)
        /\ (0 <= x -> x + len game_over_text <= width narrow_over_game)).
Proof.
  split.
  - apply (proj1 (status_line_columns true demo_game)). reflexivity.
  - apply (proj1 (proj2 (status_line_columns true narrow_over_game))).
    reflexivity.
Defined.

(** ** Colours *)

Lemma filter_keep {A : Type} (f : A -> bool) (l : list A) :
  (forall a, In a l -> f a = true) -> filter f l = l.
Proof.
  induction l as [|a l IH]; intros H; [reflexivity|].
  cbn [filter]. rewrite (H a (or_introl eq_refl)), IH; [reflexivity|].
  intros a' Ha'. apply H. right. exact Ha'.
Qed.

Lemma filter_colored (a b : call) (body : list call) :
  is_attr a = true -> is_attr b = true ->
  (forall c, In c body -> is_attr c = false) ->
  filter (fun c => negb (is_attr c)) ([a] ++ body ++ [b]) = [] ++ body ++ [].
Proof.
  intros Ha Hb Hbody. rewrite !filter_app. cbn [filter].
  rewrite Ha, Hb. cbn [negb]. do 2 f_equal.
  apply filter_keep. intros c Hc. rewrite (Hbody c Hc). reflexivity.
Qed.

Lemma app_regroup {A : Type} (a b x y z : list A) :
  a ++ x ++ y ++ z ++ b = a ++ (x ++ y ++ z) ++ b.
Proof. rewrite <- !app_assoc. reflexivity. Qed.

Lemma draw_border_colors s :
  filter (fun c => negb (is_attr c)) (draw_border true s)
  = draw_border false s.
Proof.
  unfold draw_border.
  rewrite (app_regroup [Attron 4] [Attroff 4]), (app_regroup [] []).
  apply filter_colored; try reflexivity.
  intros c Hc. rewrite !in_app_iff in Hc. destruct Hc as [H|[H|H]].
  - apply in_flat_map in H as (x & _ & [<-|[<-|[]]]); reflexivity.
  - apply in_flat_map in H as (x & _ & [<-|[<-|[]]]); reflexivity.
  - destruct H as [<-|[<-|[<-|[<-|[]]]]]; reflexivity.
Qed.

Lemma draw_snake_colors s :
  filter (fun c => negb (is_attr c)) (draw_snake true s) = draw_snake false s.
Proof.
  unfold draw_snake. apply filter_colored; try reflexivity.
  generalize 0%nat.
  induction (snake s) as [|[y x] l IH]; intros i c; [intros []|].
  cbn [draw_cells In]. intros [<-|H]; [|exact (IH _ _ H)].
  destruct (Nat.eqb i 0); reflexivity.
Qed.

Lemma draw_food_colors s :
  filter (fun c => negb (is_attr c)) (draw_food true s) = draw_food false s.
Proof.
  unfold draw_food. apply filter_colored; try reflexivity.
  intros c Hc. destruct (food s). destruct Hc as [<-|[]]. reflexivity.
Qed.

Lemma draw_score_colors s :
  filter (fun c => negb (is_attr c)) (draw_score true s) = draw_score false s.
Proof.
  unfold draw_score.
  rewrite (app_regroup [Attron 3] [Attroff 3]), (app_regroup [] []).
  apply filter_colored; try reflexivity.
  intros c Hc. rewrite !in_app_iff in Hc. destruct Hc as [H|[H|H]].
  - destruct H as [<-|[]]. reflexivity.
  - destruct H as [<-|[]]. reflexivity.
  - destruct (game_over s); destruct H as [<-|[]]; reflexivity.
Qed.

(** X26. Colours change nothing else: with the colour calls taken out,
    what [draw_game] does on a terminal with colours is call for call what
    it does on a terminal without. *)
Theorem draw_game_colors (s : SnakeGame) :
  filter (fun c => negb (is_attr c)) (draw_game true s) = draw_game false s.
Proof.
  unfold draw_game. rewrite !filter_app.
  rewrite draw_border_colors, draw_snake_colors, draw_food_colors,
    draw_score_colors.
  reflexivity.
Qed.

(** ** What a move leaves alone *)

(** X27. [update_snake] never writes to the direction or to the bounds.
    Unless the snake eats in that call (score up by 10, game still on) it
    leaves the score, the food and the delay as they were and draws no
    random number.  It changes the high score only in a call that ends the
    game. *)
Theorem update_snake_frame
    (fuel : nat) (s : SnakeGame) (g : Rng) (s' : SnakeGame) (g' : Rng) :
  update_snake fuel s g = Done (s', g') ->
  direction s' = direction s
  /\ height s' = height s /\ width s' = width s
  /\ game_height s' = game_height s /\ game_width s' = game_width s
  /\ ((score s' = score s /\ food s' = food s /\ timeout s' = timeout s
       /\ g' = g)
      \/ (score s' = score s + 10 /\ game_over s' = false))
  /\ (high_score s' = high_score s
      \/ (game_over s = false /\ game_over s' = true)).
Proof.
  intros H. apply update_snake_Done in H.
  destruct H as [Ho | head tl Hover Hsn Hc | head tl Hover Hsn Hwc Hin Hf
                | head tl f g' Hover Hsn Hwc Hin Hf Hg].
  - repeat split; auto.
  - destruct (end_game_frame s)
      as (Ho & Es & Ef & Esc & Ed & Et & Egh & Egw & Eh & Ew).
    repeat split; auto.
  - unfold moved. cbn. repeat split; auto.
  - cbn. repeat split; auto.
Qed.

Lemma update_snake_frame_witness :
  direction turned_game = direction (set_direction demo_game UP)
  /\ height turned_game = height (set_direction demo_game UP)
  /\ width turned_game = width (set_direction demo_game UP)
  /\ game_height turned_game = game_height (set_direction demo_game UP)
  /\ game_width turned_game = game_width (set_direction demo_game UP)
  /\ ((score turned_game = score (set_direction demo_game UP)
       /\ food turned_game = food (set_direction demo_game UP)
       /\ timeout turned_game = timeout (set_direction demo_game UP)
       /\ demo_rng = demo_rng)
      \/ (score turned_game = score (set_direction demo_game UP) + 10
          /\ game_over turned_game = false))
  /\ (high_score turned_game = high_score (set_direction demo_game UP)
      \/ (game_over (set_direction demo_game UP) = false
          /\ game_over turned_game = true)).
Proof.
  apply (update_snake_frame 0 (set_direction demo_game UP) demo_rng
           turned_game demo_rng).
  reflexivity.
Defined.

(** ** The highest score *)

Lemma in_floor_cells s p : In p (floor_cells s) <-> sampled s p.
Proof.
  destruct p as [y x]. unfold floor_cells, sampled. cbn [fst snd]. split.
  - intros H. apply in_prod_iff in H as [Hy Hx].
    apply in_map_iff in Hy as (ky & <- & Hy).
    apply in_map_iff in Hx as (kx & <- & Hx).
    apply in_range in Hy, Hx. lia.
  - intros [Hy Hx]. apply in_prod_iff. split; apply in_map_iff.
    + exists (y - 1). split; [lia | apply in_range; lia].
    + exists (x - 1). split; [lia | apply in_range; lia].
Qed.

Lemma length_floor_cells s :
  2 <= game_height s -> 2 <= game_width s ->
  Z.of_nat (length (floor_cells s))
  = (game_height s - 1) * (game_width s - 1).
Proof.
  intros Hh Hw. unfold floor_cells, range, Position.
  rewrite length_prod, !length_map, !length_seq, Nat2Z.inj_mul.
  rewrite !Z2Nat.id by lia. reflexivity.
Qed.

(** X28. The snake of a reachable game on a screen of at least 6 rows and
    8 columns has no more cells than the floor, so the score has a ceiling:
    [score <= 10 * ((game_height - 1) * (game_width - 1) - 3)]. *)
Theorem score_ceiling (s : SnakeGame) (g : Rng) :
  reachable s g ->
  6 <= height s -> 8 <= width s ->
  Z.of_nat (length (snake s)) <= (game_height s - 1) * (game_width s - 1)
  /\ score s <= 10 * ((game_height s - 1) * (game_width s - 1) - 3).
Proof.
  intros Hreach H6 H8. apply reachable_sound in Hreach.
  destruct (sound_dims s Hreach) as [Hh Hw].
  pose proof (sound_floor s Hreach H6 H8) as Hfloor.
  rewrite Forall_forall in Hfloor.
  assert (length (snake s) <= length (floor_cells s))%nat as Hlen.
  { apply NoDup_incl_length; [apply (sound_nodup s Hreach)|].
    intros p Hp. apply in_floor_cells, Hfloor, Hp. }
  rewrite <- length_floor_cells by lia.
  rewrite (sound_score s Hreach). lia.
Qed.

Lemma score_ceiling_witness :
  Z.of_nat (length (snake turned_game))
  <= (game_height turned_game - 1) * (game_width turned_game - 1)
  /\ score turned_game
     <= 10 * ((game_height turned_game - 1) * (game_width turned_game - 1)
              - 3).
Proof.
  apply (score_ceiling turned_game (skip 2 demo_rng)).
  - exact turned_game_reachable.
  - cbn. lia.
  - cbn. lia.
Defined.
